(** * The IR layer of mathvm (students/2014/zhirkov/vm/ir/ir.h)

    A shallow embedding of the node classes, of the block graph built by
    [Block::link], and of the double dispatch between [IrElement::visit]
    and [IrVisitor].

    Objects live in a store indexed by their address.  A C++ pointer is an
    optional address ([None] is [NULL]); a [std::shared_ptr] field is
    modelled by the address it holds, since no function of the header
    looks at the reference count.  Allocation failure ([std::bad_alloc])
    is not modelled. *)

From stdpp Require Import gmap strings list fin_maps pretty.
From Stdlib Require Import Floats.SpecFloat.

Abbreviation loc := nat (only parsing).
Abbreviation ptr := (option nat) (only parsing).

(** ** Enumerations *)

(** [IrElement::IrType], generated by [FOR_IR(DECLARE_IR_TYPE)]. *)
Inductive IrType :=
  | IT_BinOp | IT_UnOp | IT_Variable | IT_Return | IT_Phi
  | IT_Int | IT_Double | IT_Ptr | IT_Block | IT_Assignment
  | IT_Call | IT_Print | IT_FunctionRecord | IT_JumpAlways | IT_JumpCond
  | IT_INVALID.

#[global] Instance IrType_eq_dec : EqDecision IrType.
Proof. solve_decision. Defined.

Inductive VarType := VT_Bot | VT_Int | VT_Double | VT_Ptr.

(** [BinOp::Type], generated by [FOR_IR_BINOP(BINOP_ENUM)]. *)
Inductive BinOp_Type :=
  | BO_ADD | BO_SUB | BO_MUL | BO_DIV | BO_MOD | BO_LT | BO_LE
  | BO_EQ | BO_NEQ | BO_OR | BO_AND | BO_LOR | BO_LAND | BO_XOR
  | BO_INVALID.

(** [UnOp::Type], generated by [FOR_IR_UNOP(UNOP_NAME)]. *)
Inductive UnOp_Type :=
  | UO_CAST_I2D | UO_CAST_D2I | UO_CAST_P2I | UO_CAST_I2P | UO_NEG | UO_NOT
  | UO_INVALID.

(** ** The fifteen concrete classes

    Every field is prefixed by the name of its class; the classes
    [Variable] and [Print] are [Variable_] and [Print_] here, their names
    being reserved words.  Integers of a fixed width are numbers in the
    range of the type; no function of the header does arithmetic on
    them.  A [double] is the value it denotes. *)

Record Variable_ := mkVariable { Variable_id : N }.

Record JumpAlways := mkJumpAlways { JumpAlways_destination : ptr }.

Record JumpCond := mkJumpCond {
  JumpCond_yes : ptr;
  JumpCond_no : ptr;
  JumpCond_condition : ptr }.

Record Assignment := mkAssignment {
  Assignment_var : Variable_;
  Assignment_value : ptr }.

Record Return := mkReturn { Return_atom : ptr }.

(** [Phi] declares no constructor: [vars] starts empty. *)
Record Phi := mkPhi { Phi_vars : list ptr }.

Record Call := mkCall { Call_params : list ptr; Call_funId : N }.

Record BinOp := mkBinOp {
  BinOp_left : ptr;
  BinOp_right : ptr;
  BinOp_type : BinOp_Type }.

Record UnOp := mkUnOp { UnOp_operand : ptr; UnOp_type : UnOp_Type }.

Record Int := mkInt { Int_value : Z }.

Record Double := mkDouble { Double_value : spec_float }.

Record Ptr := mkPtr { Ptr_value : N; Ptr_isPooledString : bool }.

(** [predecessors] holds [const Block*]; its only writer in the header is
    [link], which pushes [this]. *)
Record Block := mkBlock {
  Block_name : string;
  Block_transition : ptr;
  Block_predecessors : list loc;
  Block_contents : list ptr }.

(** [entry] is a member of class type; the record holds the address of
    that member, which is what [link] stores in predecessor vectors. *)
Record FunctionRecord := mkFunctionRecord {
  FunctionRecord_id : N;
  FunctionRecord_entry : loc;
  FunctionRecord_parametersIds : list N;
  FunctionRecord_pool : list string;
  FunctionRecord_returnType : VarType }.

Record Print_ := mkPrint { Print_atom : ptr }.

(** An object of one of the concrete classes: its dynamic type together
    with its state. *)
Inductive IrElement :=
  | IR_BinOp (o : BinOp)
  | IR_UnOp (o : UnOp)
  | IR_Variable (o : Variable_)
  | IR_Return (o : Return)
  | IR_Phi (o : Phi)
  | IR_Int (o : Int)
  | IR_Double (o : Double)
  | IR_Ptr (o : Ptr)
  | IR_Block (o : Block)
  | IR_Assignment (o : Assignment)
  | IR_Call (o : Call)
  | IR_Print (o : Print_)
  | IR_FunctionRecord (o : FunctionRecord)
  | IR_JumpAlways (o : JumpAlways)
  | IR_JumpCond (o : JumpCond).

(** The dynamic type of an object. *)
Definition dynamic_type (e : IrElement) : IrType :=
  match e with
  | IR_BinOp _ => IT_BinOp
  | IR_UnOp _ => IT_UnOp
  | IR_Variable _ => IT_Variable
  | IR_Return _ => IT_Return
  | IR_Phi _ => IT_Phi
  | IR_Int _ => IT_Int
  | IR_Double _ => IT_Double
  | IR_Ptr _ => IT_Ptr
  | IR_Block _ => IT_Block
  | IR_Assignment _ => IT_Assignment
  | IR_Call _ => IT_Call
  | IR_Print _ => IT_Print
  | IR_FunctionRecord _ => IT_FunctionRecord
  | IR_JumpAlways _ => IT_JumpAlways
  | IR_JumpCond _ => IT_JumpCond
  end.

(** ** Outcomes and the store *)

(** The header throws nothing.  The three errors are the ones the
    specification names for this layer; they are here so that its failure
    clauses can be stated and compared with what the functions do. *)
Inductive IrError := MalformedNode | AlreadyLinked | UnknownNodeKind.

(** How a call ends: it returns, it throws, or its behaviour is undefined
    (a null or dangling pointer is dereferenced). *)
Inductive outcome (A : Type) :=
  | Returns (a : A)
  | Throws (e : IrError)
  | Undefined.
Arguments Returns {A} a.
Arguments Throws {A} e.
Arguments Undefined {A}.

#[global] Instance outcome_ret : MRet outcome := @Returns.
#[global] Instance outcome_bind : MBind outcome := λ A B f m,
  match m with
  | Returns a => f a
  | Throws e => Throws e
  | Undefined => Undefined
  end.

(** The store: the live objects by address.  Nothing is destroyed while a
    graph is being built. *)
Abbreviation heap := (gmap nat IrElement).

(** An object comes to life at an address that no live object has. *)
Definition allocate (e : IrElement) (h : heap) : loc * heap :=
  let a := fresh (dom h) in (a, <[a := e]> h).

(** ** Constructors *)

(** Modelled from the spec: [mathvm::toString] is declared in [../util.h],
    which is not among the sources; following the description of the entry
    block's name, it renders an unsigned integer in decimal. *)
Definition toString (n : N) : string := pretty n.

Definition Variable_ctor (id : N) : Variable_ := mkVariable id.
Definition JumpAlways_ctor (dest : ptr) : JumpAlways := mkJumpAlways dest.
Definition JumpCond_ctor (yes no condition : ptr) : JumpCond :=
  mkJumpCond yes no condition.
Definition Assignment_ctor (var : Variable_) (expr : ptr) : Assignment :=
  mkAssignment var expr.
Definition Return_ctor (atom : ptr) : Return := mkReturn atom.
Definition Phi_ctor : Phi := mkPhi [].
Definition Call_ctor (id : N) (params : list ptr) : Call := mkCall params id.
Definition BinOp_ctor (left right : ptr) (type : BinOp_Type) : BinOp :=
  mkBinOp left right type.
Definition UnOp_ctor (operand : ptr) (type : UnOp_Type) : UnOp :=
  mkUnOp operand type.
Definition Int_ctor (value : Z) : Int := mkInt value.
Definition Double_ctor (value : spec_float) : Double := mkDouble value.
Definition Ptr_ctor (value : N) (isPooledString : bool) : Ptr :=
  mkPtr value isPooledString.
Definition Print_ctor (atom : ptr) : Print_ := mkPrint atom.

(** [Block(name) : name(name), _transition(NULL)]; the two vectors are
    default-constructed. *)
Definition Block_ctor (name : string) : Block := mkBlock name None [] [].

(** [FunctionRecord(id, returnType) : id(id),
    entry(Block(mathvm::toString(id))), returnType(returnType)]; the two
    vectors are default-constructed.  [entry] is where the member lives. *)
Definition FunctionRecord_ctor (id : N) (returnType : VarType) (entry : loc)
  : FunctionRecord := mkFunctionRecord id entry [] [] returnType.

(** A constructor call with its arguments. *)
Inductive Construction :=
  | New_Variable (id : N)
  | New_JumpAlways (dest : ptr)
  | New_JumpCond (yes no condition : ptr)
  | New_Assignment (var : Variable_) (expr : ptr)
  | New_Return (atom : ptr)
  | New_Phi
  | New_Call (id : N) (params : list ptr)
  | New_BinOp (left right : ptr) (type : BinOp_Type)
  | New_UnOp (operand : ptr) (type : UnOp_Type)
  | New_Int (value : Z)
  | New_Double (value : spec_float)
  | New_Ptr (value : N) (isPooledString : bool)
  | New_Block (name : string)
  | New_FunctionRecord (id : N) (returnType : VarType)
  | New_Print (atom : ptr).

(** Running a constructor: the address of the new object and the store
    with it.  A function record brings its entry block with it. *)
Definition construct (c : Construction) (h : heap) : outcome (loc * heap) :=
  match c with
  | New_Variable id => Returns (allocate (IR_Variable (Variable_ctor id)) h)
  | New_JumpAlways dest =>
      Returns (allocate (IR_JumpAlways (JumpAlways_ctor dest)) h)
  | New_JumpCond yes no condition =>
      Returns (allocate (IR_JumpCond (JumpCond_ctor yes no condition)) h)
  | New_Assignment var expr =>
      Returns (allocate (IR_Assignment (Assignment_ctor var expr)) h)
  | New_Return atom => Returns (allocate (IR_Return (Return_ctor atom)) h)
  | New_Phi => Returns (allocate (IR_Phi Phi_ctor) h)
  | New_Call id params => Returns (allocate (IR_Call (Call_ctor id params)) h)
  | New_BinOp l r type =>
      Returns (allocate (IR_BinOp (BinOp_ctor l r type)) h)
  | New_UnOp operand type =>
      Returns (allocate (IR_UnOp (UnOp_ctor operand type)) h)
  | New_Int value => Returns (allocate (IR_Int (Int_ctor value)) h)
  | New_Double value => Returns (allocate (IR_Double (Double_ctor value)) h)
  | New_Ptr value isPooledString =>
      Returns (allocate (IR_Ptr (Ptr_ctor value isPooledString)) h)
  | New_Block name => Returns (allocate (IR_Block (Block_ctor name)) h)
  | New_FunctionRecord id returnType =>
      let '(entry, h1) := allocate (IR_Block (Block_ctor (toString id))) h in
      Returns
        (allocate (IR_FunctionRecord (FunctionRecord_ctor id returnType entry))
           h1)
  | New_Print atom => Returns (allocate (IR_Print (Print_ctor atom)) h)
  end.

(** ** Blocks *)

Definition block_at (h : heap) (a : loc) : option Block :=
  match h !! a with
  | Some (IR_Block b) => Some b
  | _ => None
  end.

(** [Block::getTransition]. *)
Definition Block_getTransition (b : Block) : ptr := Block_transition b.

Definition set_transition (j : ptr) (b : Block) : Block :=
  mkBlock (Block_name b) j (Block_predecessors b) (Block_contents b).

Definition push_predecessor (p : loc) (b : Block) : Block :=
  mkBlock (Block_name b) (Block_transition b) (Block_predecessors b ++ [p])
    (Block_contents b).

Definition push_content (s : ptr) (b : Block) : Block :=
  mkBlock (Block_name b) (Block_transition b) (Block_predecessors b)
    (Block_contents b ++ [s]).

(** [target->predecessors.push_back(p)]. *)
Definition predecessors_push_back (target : ptr) (p : loc) (h : heap)
  : outcome heap :=
  match target with
  | Some t =>
      match block_at h t with
      | Some b => Returns (<[t := IR_Block (push_predecessor p b)]> h)
      | None => Undefined
      end
  | None => Undefined
  end.

(** [void Block::link(JumpCond *cond)]. *)
Definition Block_link_cond (this cond : ptr) (h : heap) : outcome heap :=
  match this, cond with
  | Some b, Some c =>
      match block_at h b, h !! c with
      | Some blk, Some (IR_JumpCond jc) =>
          let h1 := <[b := IR_Block (set_transition (Some c) blk)]> h in
          h2 ← predecessors_push_back (JumpCond_yes jc) b h1;
          predecessors_push_back (JumpCond_no jc) b h2
      | _, _ => Undefined
      end
  | _, _ => Undefined
  end.

(** [void Block::link(Block *next)]. *)
Definition Block_link_always (this next : ptr) (h : heap) : outcome heap :=
  match this with
  | Some b =>
      match block_at h b with
      | Some blk =>
          let '(j, h1) := allocate (IR_JumpAlways (JumpAlways_ctor next)) h in
          let h2 := <[b := IR_Block (set_transition (Some j) blk)]> h1 in
          predecessors_push_back next b h2
      | None => Undefined
      end
  | None => Undefined
  end.

(** [this->contents.push_back(s)]. *)
Definition contents_push_back (this : ptr) (s : ptr) (h : heap)
  : outcome heap :=
  match this with
  | Some b =>
      match block_at h b with
      | Some blk => Returns (<[b := IR_Block (push_content s blk)]> h)
      | None => Undefined
      end
  | None => Undefined
  end.

(** ** Building a graph *)

Inductive Op :=
  | Op_new (c : Construction)
  | Op_link_cond (this cond : ptr)
  | Op_link_always (this next : ptr)
  | Op_contents_push_back (this s : ptr).

Definition step (o : Op) (h : heap) : outcome heap :=
  match o with
  | Op_new c => r ← construct c h; mret r.2
  | Op_link_cond this cond => Block_link_cond this cond h
  | Op_link_always this next => Block_link_always this next h
  | Op_contents_push_back this s => contents_push_back this s h
  end.

Fixpoint run (ops : list Op) (h : heap) : outcome heap :=
  match ops with
  | [] => Returns h
  | o :: ops' => h' ← step o h; run ops' h'
  end.

(** ** What a graph shows *)

(** [t->predecessors], empty where there is no block. *)
Definition predecessors_of (h : heap) (t : loc) : list loc :=
  match block_at h t with
  | Some b => Block_predecessors b
  | None => []
  end.

(** [b->getTransition()]. *)
Definition transition_of (h : heap) (b : loc) : ptr :=
  block_at h b ≫= Block_getTransition.

(** The blocks a jump names: [destination], or [yes] and [no]. *)
Definition jump_targets (e : IrElement) : list ptr :=
  match e with
  | IR_JumpAlways j => [JumpAlways_destination j]
  | IR_JumpCond j => [JumpCond_yes j; JumpCond_no j]
  | _ => []
  end.

Definition targets_at (h : heap) (j : loc) : list ptr :=
  match h !! j with
  | Some e => jump_targets e
  | None => []
  end.

(** The transition edges that leave a block. *)
Definition successors (h : heap) (b : loc) : list ptr :=
  match transition_of h b with
  | Some j => targets_at h j
  | None => []
  end.

Fixpoint times {A} `{EqDecision A} (x : A) (l : list A) : nat :=
  match l with
  | [] => 0
  | y :: l' => (if decide (x = y) then 1 else 0) + times x l'
  end.

(** How often [b] stands in [t->predecessors]. *)
Definition pred_count (h : heap) (b t : loc) : nat :=
  times b (predecessors_of h t).

(** How often the transition of [b] targets [t]. *)
Definition edge_count (h : heap) (b t : loc) : nat :=
  times (Some t) (successors h b).

(** The predecessor vectors are the inverse of the transition edges. *)
Definition inverse_edges (h : heap) : Prop :=
  ∀ b t, pred_count h b t = edge_count h b t.

(** An object that no edge touches: not a block, or a block without
    transition and without predecessors. *)
Definition inert (e : IrElement) : Prop :=
  match e with
  | IR_Block x => Block_predecessors x = [] ∧ Block_transition x = None
  | _ => True
  end.

(** The block an operation links, if it is a link. *)
Definition linker (o : Op) : ptr :=
  match o with
  | Op_link_cond this _ => this
  | Op_link_always this _ => this
  | _ => None
  end.

(** The entries an operation appends to [t->predecessors]. *)
Definition pushed (o : Op) (h : heap) (t : loc) : list loc :=
  match o with
  | Op_link_cond (Some b) (Some c) =>
      match h !! c with
      | Some (IR_JumpCond jc) =>
          (if decide (JumpCond_yes jc = Some t) then [b] else []) ++
          (if decide (JumpCond_no jc = Some t) then [b] else [])
      | _ => []
      end
  | Op_link_always (Some b) next =>
      if decide (next = Some t) then [b] else []
  | _ => []
  end.

(** A link is a first link when the block it links has no transition. *)
Definition first_link (o : Op) (h : heap) : bool :=
  match linker o with
  | Some b => bool_decide (transition_of h b = None)
  | None => true
  end.

(** Every link of the sequence is a first link. *)
Fixpoint linked_once (ops : list Op) (h : heap) : bool :=
  match ops with
  | [] => true
  | o :: ops' =>
      first_link o h &&
      match step o h with
      | Returns h' => linked_once ops' h'
      | _ => true
      end
  end.

(** The entries a sequence of operations appends to [t->predecessors],
    in the order of the calls. *)
Fixpoint all_pushed (ops : list Op) (h : heap) (t : loc) : list loc :=
  match ops with
  | [] => []
  | o :: ops' =>
      pushed o h t ++
      match step o h with
      | Returns h' => all_pushed ops' h' t
      | _ => []
      end
  end.

(** Every transition points to a live object. *)
Definition valid_transitions (h : heap) : Prop :=
  ∀ b j, transition_of h b = Some j → is_Some (h !! j).

(** Every entry of a predecessor vector is a block that has a transition. *)
Definition linked_predecessors (h : heap) : Prop :=
  ∀ t p, p ∈ predecessors_of h t → transition_of h p ≠ None.

Definition well_built (h : heap) : Prop :=
  valid_transitions h ∧ linked_predecessors h.

(** The store a sequence of operations builds from nothing. *)
Definition built (ops : list Op) : heap :=
  match run ops ∅ with
  | Returns h => h
  | _ => ∅
  end.

(** The pointers a constructor call is given as operands. *)
Definition operands (c : Construction) : list ptr :=
  match c with
  | New_JumpAlways dest => [dest]
  | New_JumpCond yes no condition => [yes; no; condition]
  | New_Assignment _ expr => [expr]
  | New_Return atom => [atom]
  | New_Call _ params => params
  | New_BinOp l r _ => [l; r]
  | New_UnOp operand _ => [operand]
  | New_Print atom => [atom]
  | _ => []
  end.

(** The fields of an object that its constructor fills from operands. *)
Definition operand_fields (e : IrElement) : list ptr :=
  match e with
  | IR_JumpAlways o => [JumpAlways_destination o]
  | IR_JumpCond o => [JumpCond_yes o; JumpCond_no o; JumpCond_condition o]
  | IR_Assignment o => [Assignment_value o]
  | IR_Return o => [Return_atom o]
  | IR_Call o => Call_params o
  | IR_BinOp o => [BinOp_left o; BinOp_right o]
  | IR_UnOp o => [UnOp_operand o]
  | IR_Print o => [Print_atom o]
  | _ => []
  end.

(** The class a constructor call belongs to. *)
Definition constructed_type (c : Construction) : IrType :=
  match c with
  | New_Variable _ => IT_Variable
  | New_JumpAlways _ => IT_JumpAlways
  | New_JumpCond _ _ _ => IT_JumpCond
  | New_Assignment _ _ => IT_Assignment
  | New_Return _ => IT_Return
  | New_Phi => IT_Phi
  | New_Call _ _ => IT_Call
  | New_BinOp _ _ _ => IT_BinOp
  | New_UnOp _ _ => IT_UnOp
  | New_Int _ => IT_Int
  | New_Double _ => IT_Double
  | New_Ptr _ _ => IT_Ptr
  | New_Block _ => IT_Block
  | New_FunctionRecord _ _ => IT_FunctionRecord
  | New_Print _ => IT_Print
  end.

(** ** Sample constructions *)

(** Three blocks, at addresses 0, 1 and 2. *)
Definition sample_blocks : list Op :=
  [Op_new (New_Block "a"); Op_new (New_Block "b"); Op_new (New_Block "c")].

(** Block 0 linked to block 1, then linked again, to block 2. *)
Definition sample_linked : list Op :=
  sample_blocks ++ [Op_link_always (Some 0) (Some 1)].

Definition sample_relinked : list Op :=
  sample_linked ++ [Op_link_always (Some 0) (Some 2)].

(** A condition at address 3 and a conditional jump at address 4, to
    blocks 1 and 2. *)
Definition sample_cond : list Op :=
  sample_blocks ++
  [Op_new (New_Variable 1); Op_new (New_JumpCond (Some 1) (Some 2) (Some 3))].

(** The same with both branches to block 1. *)
Definition sample_cond_same : list Op :=
  sample_blocks ++
  [Op_new (New_Variable 1); Op_new (New_JumpCond (Some 1) (Some 1) (Some 3))].

(** A function whose entry block (address 0) holds [v1 = 5] and is linked
    to a block (address 4) that holds [return v1]. *)
Definition sample_function : list Op :=
  [Op_new (New_FunctionRecord 1 VT_Int);
   Op_new (New_Int 5);
   Op_new (New_Assignment (mkVariable 1) (Some 2));
   Op_contents_push_back (Some 0) (Some 3);
   Op_new (New_Block "R");
   Op_new (New_Variable 1);
   Op_new (New_Return (Some 5));
   Op_contents_push_back (Some 4) (Some 6)].

(** An integer constant at address 0. *)
Definition sample_int : list Op := [Op_new (New_Int 5)].

(** ** Type tests, casts and tags

    Through [HELPER], [IrElement] declares for each class [ir] a virtual
    [is##ir] that returns [false] and a virtual [as##ir] that returns
    [NULL]; through [IR_COMMON_FUNCTIONS(ir)], class [ir] overrides its own
    pair, to return [true] and [this].  Each function below is one such
    virtual function, called on the object [e] that lives at [this]. *)

Definition isBinOp (e : IrElement) : bool :=
  match e with IR_BinOp _ => true | _ => false end.

Definition isUnOp (e : IrElement) : bool :=
  match e with IR_UnOp _ => true | _ => false end.

Definition isVariable (e : IrElement) : bool :=
  match e with IR_Variable _ => true | _ => false end.

Definition isReturn (e : IrElement) : bool :=
  match e with IR_Return _ => true | _ => false end.

Definition isPhi (e : IrElement) : bool :=
  match e with IR_Phi _ => true | _ => false end.

Definition isInt (e : IrElement) : bool :=
  match e with IR_Int _ => true | _ => false end.

Definition isDouble (e : IrElement) : bool :=
  match e with IR_Double _ => true | _ => false end.

Definition isPtr (e : IrElement) : bool :=
  match e with IR_Ptr _ => true | _ => false end.

Definition isBlock (e : IrElement) : bool :=
  match e with IR_Block _ => true | _ => false end.

Definition isAssignment (e : IrElement) : bool :=
  match e with IR_Assignment _ => true | _ => false end.

Definition isCall (e : IrElement) : bool :=
  match e with IR_Call _ => true | _ => false end.

Definition isPrint (e : IrElement) : bool :=
  match e with IR_Print _ => true | _ => false end.

Definition isFunctionRecord (e : IrElement) : bool :=
  match e with IR_FunctionRecord _ => true | _ => false end.

Definition isJumpAlways (e : IrElement) : bool :=
  match e with IR_JumpAlways _ => true | _ => false end.

Definition isJumpCond (e : IrElement) : bool :=
  match e with IR_JumpCond _ => true | _ => false end.


Definition asBinOp (this : loc) (e : IrElement) : ptr :=
  match e with IR_BinOp _ => Some this | _ => None end.

Definition asUnOp (this : loc) (e : IrElement) : ptr :=
  match e with IR_UnOp _ => Some this | _ => None end.

Definition asVariable (this : loc) (e : IrElement) : ptr :=
  match e with IR_Variable _ => Some this | _ => None end.

Definition asReturn (this : loc) (e : IrElement) : ptr :=
  match e with IR_Return _ => Some this | _ => None end.

Definition asPhi (this : loc) (e : IrElement) : ptr :=
  match e with IR_Phi _ => Some this | _ => None end.

Definition asInt (this : loc) (e : IrElement) : ptr :=
  match e with IR_Int _ => Some this | _ => None end.

Definition asDouble (this : loc) (e : IrElement) : ptr :=
  match e with IR_Double _ => Some this | _ => None end.

Definition asPtr (this : loc) (e : IrElement) : ptr :=
  match e with IR_Ptr _ => Some this | _ => None end.

Definition asBlock (this : loc) (e : IrElement) : ptr :=
  match e with IR_Block _ => Some this | _ => None end.

Definition asAssignment (this : loc) (e : IrElement) : ptr :=
  match e with IR_Assignment _ => Some this | _ => None end.

Definition asCall (this : loc) (e : IrElement) : ptr :=
  match e with IR_Call _ => Some this | _ => None end.

Definition asPrint (this : loc) (e : IrElement) : ptr :=
  match e with IR_Print _ => Some this | _ => None end.

Definition asFunctionRecord (this : loc) (e : IrElement) : ptr :=
  match e with IR_FunctionRecord _ => Some this | _ => None end.

Definition asJumpAlways (this : loc) (e : IrElement) : ptr :=
  match e with IR_JumpAlways _ => Some this | _ => None end.

Definition asJumpCond (this : loc) (e : IrElement) : ptr :=
  match e with IR_JumpCond _ => Some this | _ => None end.


(** [getType] is not a member of [IrElement]: each class declares its own
    through [IR_COMMON_FUNCTIONS(ir)], returning [IT_##ir]. *)
Definition BinOp_getType (o : BinOp) : IrType := IT_BinOp.
Definition UnOp_getType (o : UnOp) : IrType := IT_UnOp.
Definition Variable_getType (o : Variable_) : IrType := IT_Variable.
Definition Return_getType (o : Return) : IrType := IT_Return.
Definition Phi_getType (o : Phi) : IrType := IT_Phi.
Definition Int_getType (o : Int) : IrType := IT_Int.
Definition Double_getType (o : Double) : IrType := IT_Double.
Definition Ptr_getType (o : Ptr) : IrType := IT_Ptr.
Definition Block_getType (o : Block) : IrType := IT_Block.
Definition Assignment_getType (o : Assignment) : IrType := IT_Assignment.
Definition Call_getType (o : Call) : IrType := IT_Call.
Definition Print_getType (o : Print_) : IrType := IT_Print.
Definition FunctionRecord_getType (o : FunctionRecord) : IrType :=
  IT_FunctionRecord.
Definition JumpAlways_getType (o : JumpAlways) : IrType := IT_JumpAlways.
Definition JumpCond_getType (o : JumpCond) : IrType := IT_JumpCond.

(** [getType] called on an object of each class. *)
Definition getType (e : IrElement) : IrType :=
  match e with
  | IR_BinOp o => BinOp_getType o
  | IR_UnOp o => UnOp_getType o
  | IR_Variable o => Variable_getType o
  | IR_Return o => Return_getType o
  | IR_Phi o => Phi_getType o
  | IR_Int o => Int_getType o
  | IR_Double o => Double_getType o
  | IR_Ptr o => Ptr_getType o
  | IR_Block o => Block_getType o
  | IR_Assignment o => Assignment_getType o
  | IR_Call o => Call_getType o
  | IR_Print o => Print_getType o
  | IR_FunctionRecord o => FunctionRecord_getType o
  | IR_JumpAlways o => JumpAlways_getType o
  | IR_JumpCond o => JumpCond_getType o
  end.

(** The test and the cast that belong to a tag.  No class carries
    [IT_INVALID], and no test or cast is declared for it. *)
Definition is_ (k : IrType) (e : IrElement) : bool :=
  match k with
  | IT_BinOp => isBinOp e
  | IT_UnOp => isUnOp e
  | IT_Variable => isVariable e
  | IT_Return => isReturn e
  | IT_Phi => isPhi e
  | IT_Int => isInt e
  | IT_Double => isDouble e
  | IT_Ptr => isPtr e
  | IT_Block => isBlock e
  | IT_Assignment => isAssignment e
  | IT_Call => isCall e
  | IT_Print => isPrint e
  | IT_FunctionRecord => isFunctionRecord e
  | IT_JumpAlways => isJumpAlways e
  | IT_JumpCond => isJumpCond e
  | IT_INVALID => false
  end.

Definition as_ (k : IrType) (this : loc) (e : IrElement) : ptr :=
  match k with
  | IT_BinOp => asBinOp this e
  | IT_UnOp => asUnOp this e
  | IT_Variable => asVariable this e
  | IT_Return => asReturn this e
  | IT_Phi => asPhi this e
  | IT_Int => asInt this e
  | IT_Double => asDouble this e
  | IT_Ptr => asPtr this e
  | IT_Block => asBlock this e
  | IT_Assignment => asAssignment this e
  | IT_Call => asCall this e
  | IT_Print => asPrint this e
  | IT_FunctionRecord => asFunctionRecord this e
  | IT_JumpAlways => asJumpAlways this e
  | IT_JumpCond => asJumpCond this e
  | IT_INVALID => None
  end.

(** ** Visitors

    [IrVisitor] declares one pure virtual [visit(const ir *const)] for each
    class and nothing else.  A visitor may keep a state of its own, of type
    [S]; a handler receives the address of the node and returns a pointer
    to a node. *)
Record IrVisitor (S : Type) := mkIrVisitor {
  visit_BinOp : loc → S → S * ptr;
  visit_UnOp : loc → S → S * ptr;
  visit_Variable : loc → S → S * ptr;
  visit_Return : loc → S → S * ptr;
  visit_Phi : loc → S → S * ptr;
  visit_Int : loc → S → S * ptr;
  visit_Double : loc → S → S * ptr;
  visit_Ptr : loc → S → S * ptr;
  visit_Block : loc → S → S * ptr;
  visit_Assignment : loc → S → S * ptr;
  visit_Call : loc → S → S * ptr;
  visit_Print : loc → S → S * ptr;
  visit_FunctionRecord : loc → S → S * ptr;
  visit_JumpAlways : loc → S → S * ptr;
  visit_JumpCond : loc → S → S * ptr }.
Arguments visit_BinOp {S} _ _ _.
Arguments visit_UnOp {S} _ _ _.
Arguments visit_Variable {S} _ _ _.
Arguments visit_Return {S} _ _ _.
Arguments visit_Phi {S} _ _ _.
Arguments visit_Int {S} _ _ _.
Arguments visit_Double {S} _ _ _.
Arguments visit_Ptr {S} _ _ _.
Arguments visit_Block {S} _ _ _.
Arguments visit_Assignment {S} _ _ _.
Arguments visit_Call {S} _ _ _.
Arguments visit_Print {S} _ _ _.
Arguments visit_FunctionRecord {S} _ _ _.
Arguments visit_JumpAlways {S} _ _ _.
Arguments visit_JumpCond {S} _ _ _.
Arguments mkIrVisitor {S}.

(** How a call of [visit] ends: it returns a pointer, or its behaviour
    becomes undefined.  As in a semantics of traces, what was done before
    that point is kept: [s] is the state in which the handlers called up
    to there have left the visitor. *)
Inductive visit_outcome (S : Type) :=
  | Visit_returns (s : S) (p : ptr)
  | Visit_undefined (s : S).
Arguments Visit_returns {S} s p.
Arguments Visit_undefined {S} s.

(** The [visit] that [IR_COMMON_FUNCTIONS(ir)] defines in class [ir]:
    [{ v->visit(this); }].  The overload is chosen by the static type of
    [this], which is [const ir *]; it is the argument [handler] here.  The
    body is an expression statement: the handler is called and its result
    is dropped.  Control then reaches the end of a function that returns
    [IrElement*] without a [return]: from there on the behaviour is
    undefined. *)
Definition IR_COMMON_visit {S} (handler : loc → S → S * ptr)
    (this : loc) (s : S) : visit_outcome S :=
  let '(s', _) := handler this s in Visit_undefined s'.

Definition BinOp_visit {S} (this : loc) (v : IrVisitor S) :=
  IR_COMMON_visit (visit_BinOp v) this.
Definition UnOp_visit {S} (this : loc) (v : IrVisitor S) :=
  IR_COMMON_visit (visit_UnOp v) this.
Definition Variable_visit {S} (this : loc) (v : IrVisitor S) :=
  IR_COMMON_visit (visit_Variable v) this.
Definition Return_visit {S} (this : loc) (v : IrVisitor S) :=
  IR_COMMON_visit (visit_Return v) this.
Definition Phi_visit {S} (this : loc) (v : IrVisitor S) :=
  IR_COMMON_visit (visit_Phi v) this.
Definition Int_visit {S} (this : loc) (v : IrVisitor S) :=
  IR_COMMON_visit (visit_Int v) this.
Definition Double_visit {S} (this : loc) (v : IrVisitor S) :=
  IR_COMMON_visit (visit_Double v) this.
Definition Ptr_visit {S} (this : loc) (v : IrVisitor S) :=
  IR_COMMON_visit (visit_Ptr v) this.
Definition Block_visit {S} (this : loc) (v : IrVisitor S) :=
  IR_COMMON_visit (visit_Block v) this.
Definition Assignment_visit {S} (this : loc) (v : IrVisitor S) :=
  IR_COMMON_visit (visit_Assignment v) this.
Definition Call_visit {S} (this : loc) (v : IrVisitor S) :=
  IR_COMMON_visit (visit_Call v) this.
Definition Print_visit {S} (this : loc) (v : IrVisitor S) :=
  IR_COMMON_visit (visit_Print v) this.
Definition FunctionRecord_visit {S} (this : loc) (v : IrVisitor S) :=
  IR_COMMON_visit (visit_FunctionRecord v) this.
Definition JumpAlways_visit {S} (this : loc) (v : IrVisitor S) :=
  IR_COMMON_visit (visit_JumpAlways v) this.
Definition JumpCond_visit {S} (this : loc) (v : IrVisitor S) :=
  IR_COMMON_visit (visit_JumpCond v) this.

(** The virtual call [this->visit(v)] through a pointer to [IrElement]:
    the function of the dynamic type of the object runs.  With a null or
    dangling [this] the behaviour is undefined before any handler is
    called. *)
Definition IrElement_visit {S} (h : heap) (this : ptr) (v : IrVisitor S)
    (s : S) : visit_outcome S :=
  match this with
  | Some a =>
      match h !! a with
      | Some e =>
            match e with
            | IR_BinOp _ => BinOp_visit a v s
            | IR_UnOp _ => UnOp_visit a v s
            | IR_Variable _ => Variable_visit a v s
            | IR_Return _ => Return_visit a v s
            | IR_Phi _ => Phi_visit a v s
            | IR_Int _ => Int_visit a v s
            | IR_Double _ => Double_visit a v s
            | IR_Ptr _ => Ptr_visit a v s
            | IR_Block _ => Block_visit a v s
            | IR_Assignment _ => Assignment_visit a v s
            | IR_Call _ => Call_visit a v s
            | IR_Print _ => Print_visit a v s
            | IR_FunctionRecord _ => FunctionRecord_visit a v s
            | IR_JumpAlways _ => JumpAlways_visit a v s
            | IR_JumpCond _ => JumpCond_visit a v s
            end
      | None => Visit_undefined s
      end
  | None => Visit_undefined s
  end.

(** The operation of a visitor that handles the nodes of a tag. *)
Definition handler_of {S} (v : IrVisitor S) (k : IrType)
  : option (loc → S → S * ptr) :=
  match k with
  | IT_BinOp => Some (visit_BinOp v)
  | IT_UnOp => Some (visit_UnOp v)
  | IT_Variable => Some (visit_Variable v)
  | IT_Return => Some (visit_Return v)
  | IT_Phi => Some (visit_Phi v)
  | IT_Int => Some (visit_Int v)
  | IT_Double => Some (visit_Double v)
  | IT_Ptr => Some (visit_Ptr v)
  | IT_Block => Some (visit_Block v)
  | IT_Assignment => Some (visit_Assignment v)
  | IT_Call => Some (visit_Call v)
  | IT_Print => Some (visit_Print v)
  | IT_FunctionRecord => Some (visit_FunctionRecord v)
  | IT_JumpAlways => Some (visit_JumpAlways v)
  | IT_JumpCond => Some (visit_JumpCond v)
  | IT_INVALID => None
  end.

(** A call of a handler, as a visitor can record it: which handler ran, on
    which node. *)
Definition traced {S} (k : IrType) (f : loc → S → S * ptr)
  : loc → S * list (IrType * loc) → (S * list (IrType * loc)) * ptr :=
  λ a sl, let '(s', r) := f a sl.1 in ((s', sl.2 ++ [(k, a)]), r).

(** The visitor that behaves as [v] and records every call of a handler. *)
Definition tracing {S} (v : IrVisitor S)
  : IrVisitor (S * list (IrType * loc)) :=
  mkIrVisitor
    (traced IT_BinOp (visit_BinOp v))
    (traced IT_UnOp (visit_UnOp v))
    (traced IT_Variable (visit_Variable v))
    (traced IT_Return (visit_Return v))
    (traced IT_Phi (visit_Phi v))
    (traced IT_Int (visit_Int v))
    (traced IT_Double (visit_Double v))
    (traced IT_Ptr (visit_Ptr v))
    (traced IT_Block (visit_Block v))
    (traced IT_Assignment (visit_Assignment v))
    (traced IT_Call (visit_Call v))
    (traced IT_Print (visit_Print v))
    (traced IT_FunctionRecord (visit_FunctionRecord v))
    (traced IT_JumpAlways (visit_JumpAlways v))
    (traced IT_JumpCond (visit_JumpCond v)).

(** The visitor that rewrites nothing: each handler returns its argument. *)
Definition identity_visitor : IrVisitor unit :=
  mkIrVisitor
    (λ a s, (s, Some a))
    (λ a s, (s, Some a))
    (λ a s, (s, Some a))
    (λ a s, (s, Some a))
    (λ a s, (s, Some a))
    (λ a s, (s, Some a))
    (λ a s, (s, Some a))
    (λ a s, (s, Some a))
    (λ a s, (s, Some a))
    (λ a s, (s, Some a))
    (λ a s, (s, Some a))
    (λ a s, (s, Some a))
    (λ a s, (s, Some a))
    (λ a s, (s, Some a))
    (λ a s, (s, Some a)).

(** The pointer a visit hands back to its caller, when it returns. *)
Definition result_of {S} (r : visit_outcome S) : option ptr :=
  match r with
  | Visit_returns _ p => Some p
  | Visit_undefined _ => None
  end.

(** Unfolds the [visit] of every class down to the call of its handler. *)
Ltac unfold_visit :=
  unfold BinOp_visit, UnOp_visit, Variable_visit, Return_visit, Phi_visit,
    Int_visit, Double_visit, Ptr_visit, Block_visit, Assignment_visit,
    Call_visit, Print_visit, FunctionRecord_visit, JumpAlways_visit,
    JumpCond_visit, IR_COMMON_visit;
  simpl; unfold traced; simpl.

(** ** More of what a graph shows *)

(** [a->name], where [a] is a block. *)
Definition name_of (h : heap) (a : loc) : option string :=
  Block_name <$> block_at h a.

(** [a->contents], empty where there is no block. *)
Definition contents_of (h : heap) (a : loc) : list ptr :=
  match block_at h a with
  | Some b => Block_contents b
  | None => []
  end.

(** The object at [a] when it is not a block. *)
Definition other_at (h : heap) (a : loc) : option IrElement :=
  match h !! a with
  | Some (IR_Block _) => None
  | x => x
  end.

(** The statements an operation appends to [a->contents]. *)
Definition appended (o : Op) (a : loc) : list ptr :=
  match o with
  | Op_contents_push_back (Some b) s => if decide (b = a) then [s] else []
  | _ => []
  end.

(** [h'] continues [h]: every object of [h] is still there; an object that
    is not a block is as it was; a block has kept its name, its statements
    and predecessors have only grown at the end, and a transition that was
    set is still set. *)
Definition extends (h h' : heap) : Prop :=
  ∀ a, is_Some (h !! a) →
    is_Some (h' !! a) ∧
    name_of h' a = name_of h a ∧
    other_at h' a = other_at h a ∧
    contents_of h a `prefix_of` contents_of h' a ∧
    predecessors_of h a `prefix_of` predecessors_of h' a ∧
    (is_Some (transition_of h a) → is_Some (transition_of h' a)).

(** Every transition is a live jump whose targets are live blocks. *)
Definition live_edges (h : heap) : Prop :=
  ∀ b j, transition_of h b = Some j →
    (∃ t, h !! j = Some (IR_JumpAlways (mkJumpAlways (Some t))) ∧
          is_Some (block_at h t)) ∨
    (∃ jc y n, h !! j = Some (IR_JumpCond jc) ∧
          JumpCond_yes jc = Some y ∧ JumpCond_no jc = Some n ∧
          is_Some (block_at h y) ∧ is_Some (block_at h n)).

(** Every transition edge has its entries in the predecessors of its
    target. *)
Definition recorded_edges (h : heap) : Prop :=
  ∀ b t, edge_count h b t ≤ pred_count h b t.

(** A [JumpAlways] is the transition of one block at most. *)
Definition owned_jumps (h : heap) : Prop :=
  ∀ b1 b2 j o,
    transition_of h b1 = Some j → transition_of h b2 = Some j →
    h !! j = Some (IR_JumpAlways o) → b1 = b2.

(** The entry of every function record is a live block named after the id
    of the record, and no two records have the same entry. *)
Definition own_entries (h : heap) : Prop :=
  (∀ f fr, h !! f = Some (IR_FunctionRecord fr) →
     name_of h (FunctionRecord_entry fr) =
       Some (toString (FunctionRecord_id fr))) ∧
  (∀ f1 f2 fr1 fr2,
     h !! f1 = Some (IR_FunctionRecord fr1) →
     h !! f2 = Some (IR_FunctionRecord fr2) →
     FunctionRecord_entry fr1 = FunctionRecord_entry fr2 → f1 = f2).

(** No conditional jump has both branches on the same block. *)
Definition distinct_branches (h : heap) : Prop :=
  ∀ c jc, h !! c = Some (IR_JumpCond jc) → JumpCond_yes jc ≠ JumpCond_no jc.

(** Both pointers of a link point to live blocks. *)
Definition link_always_defined (this next : ptr) (h : heap) : Prop :=
  is_Some (this ≫= block_at h) ∧ is_Some (next ≫= block_at h).

(** The conditional jump a pointer points to. *)
Definition jump_cond_at (h : heap) (c : loc) : option JumpCond :=
  match h !! c with
  | Some (IR_JumpCond jc) => Some jc
  | _ => None
  end.

(** [this] points to a live block, [cond] to a live conditional jump, and
    both branches of that jump to live blocks. *)
Definition link_cond_defined (this cond : ptr) (h : heap) : Prop :=
  is_Some (this ≫= block_at h) ∧
  ∃ jc, cond ≫= jump_cond_at h = Some jc ∧
    is_Some (JumpCond_yes jc ≫= block_at h) ∧
    is_Some (JumpCond_no jc ≫= block_at h).

(** ** More sample constructions *)

(** Two functions, entries at addresses 0 and 2, records at 1 and 3. *)
Definition sample_functions : list Op :=
  [Op_new (New_FunctionRecord 1 VT_Int); Op_new (New_FunctionRecord 2 VT_Bot)].

(** Blocks 0 and 1 both linked through the conditional jump of
    [sample_cond]. *)
Definition sample_cond_linked : list Op :=
  sample_cond ++ [Op_link_cond (Some 0) (Some 4)].
(** * Lemmas on the store *)

Section store.
Implicit Types (h : heap) (e : IrElement) (a b t j : nat).

Lemma times_app {A} `{EqDecision A} (x : A) (l1 l2 : list A) :
  times x (l1 ++ l2) = times x l1 + times x l2.
Proof. induction l1 as [|y l1 IH]; simpl; [done | rewrite IH; lia]. Qed.

Lemma times_not_elem {A} `{EqDecision A} (x : A) (l : list A) :
  x ∉ l → times x l = 0.
Proof.
  induction l as [|y l IH]; simpl; [done |].
  intros Hx. apply not_elem_of_cons in Hx as [Hne Hl].
  rewrite decide_False by done. by rewrite IH.
Qed.

Lemma block_at_insert h a e b :
  block_at (<[a := e]> h) b =
  if decide (a = b) then
    match e with IR_Block x => Some x | _ => None end
  else block_at h b.
Proof.
  unfold block_at. case_decide as Hab.
  - subst. by rewrite lookup_insert_eq.
  - by rewrite lookup_insert_ne.
Qed.

Lemma predecessors_of_insert h a e t :
  predecessors_of (<[a := e]> h) t =
  if decide (a = t) then
    match e with IR_Block x => Block_predecessors x | _ => [] end
  else predecessors_of h t.
Proof.
  unfold predecessors_of. rewrite block_at_insert.
  case_decide; [by destruct e | done].
Qed.

Lemma transition_of_insert h a e b :
  transition_of (<[a := e]> h) b =
  if decide (a = b) then
    match e with IR_Block x => Block_transition x | _ => None end
  else transition_of h b.
Proof.
  unfold transition_of. rewrite block_at_insert.
  case_decide; [by destruct e | done].
Qed.

Lemma targets_at_insert h a e j :
  targets_at (<[a := e]> h) j =
  if decide (a = j) then jump_targets e else targets_at h j.
Proof.
  unfold targets_at. case_decide as Haj.
  - subst. by rewrite lookup_insert_eq.
  - by rewrite lookup_insert_ne.
Qed.

Lemma block_at_Some h a x :
  block_at h a = Some x → h !! a = Some (IR_Block x).
Proof.
  unfold block_at. destruct (h !! a) as [[]|]; naive_solver.
Qed.

Lemma block_at_None h a : h !! a = None → block_at h a = None.
Proof. unfold block_at. by intros ->. Qed.

Lemma predecessors_of_block h a x :
  block_at h a = Some x → predecessors_of h a = Block_predecessors x.
Proof. unfold predecessors_of. by intros ->. Qed.

Lemma transition_of_block h a x :
  block_at h a = Some x → transition_of h a = Block_transition x.
Proof. unfold transition_of. by intros ->. Qed.

Lemma targets_at_block h a x : block_at h a = Some x → targets_at h a = [].
Proof.
  intros Hx%block_at_Some. unfold targets_at. by rewrite Hx.
Qed.

Lemma transition_of_Some_block h b j :
  transition_of h b = Some j → is_Some (block_at h b).
Proof. unfold transition_of. destruct (block_at h b); naive_solver. Qed.

Lemma allocate_eq e h :
  allocate e h = (fresh (dom h), <[fresh (dom h) := e]> h).
Proof. done. Qed.

Lemma fresh_None h : h !! fresh (dom h) = None.
Proof. apply not_elem_of_dom, is_fresh. Qed.
End store.

(** * What each operation does to a graph *)

Section effects.
Implicit Types (h : heap) (e : IrElement) (a b t j p : nat) (o : Op).

Lemma insert_inert h a e :
  h !! a = None → inert e →
  (∀ x, is_Some (h !! x) → <[a := e]> h !! x = h !! x) ∧
  (∀ t, predecessors_of (<[a := e]> h) t = predecessors_of h t) ∧
  (∀ b, transition_of (<[a := e]> h) b = transition_of h b).
Proof.
  intros Ha He. split_and!.
  - intros x [y Hy]. rewrite lookup_insert_ne; [done | congruence].
  - intros t. rewrite predecessors_of_insert.
    case_decide as Hat; [subst | done].
    unfold predecessors_of. rewrite block_at_None by done.
    destruct e; try done. by destruct He as [-> _].
  - intros b. rewrite transition_of_insert. case_decide as Hab; [subst | done].
    unfold transition_of. rewrite block_at_None by done.
    destruct e; try done. by destruct He as [_ ->].
Qed.

Lemma construct_effect c h a h' :
  construct c h = Returns (a, h') →
  h !! a = None ∧ is_Some (h' !! a) ∧
  (∀ x, is_Some (h !! x) → h' !! x = h !! x) ∧
  (∀ t, predecessors_of h' t = predecessors_of h t) ∧
  (∀ b, transition_of h' b = transition_of h b).
Proof.
  assert (Hone : ∀ e, inert e →
    h !! fresh (dom h) = None ∧
    is_Some (<[fresh (dom h) := e]> h !! fresh (dom h)) ∧
    (∀ x, is_Some (h !! x) → <[fresh (dom h) := e]> h !! x = h !! x) ∧
    (∀ t, predecessors_of (<[fresh (dom h) := e]> h) t =
          predecessors_of h t) ∧
    (∀ b, transition_of (<[fresh (dom h) := e]> h) b = transition_of h b)).
  { intros e He. split; [apply fresh_None |].
    split; [rewrite lookup_insert_eq; eauto |].
    apply insert_inert; [apply fresh_None | done]. }
  destruct c; simpl; unfold allocate; intros [= <- <-];
    try (apply Hone; done).
  set (e0 := fresh (dom h)).
  set (h1 := <[e0 := IR_Block (Block_ctor (toString id))]> h).
  destruct (insert_inert h e0 (IR_Block (Block_ctor (toString id))))
    as (Hk & Hp & Ht); [apply fresh_None | done |].
  destruct (insert_inert h1 (fresh (dom h1))
              (IR_FunctionRecord (FunctionRecord_ctor id returnType e0)))
    as (Hk' & Hp' & Ht'); [apply fresh_None | done |].
  assert (Hsub : ∀ x, is_Some (h !! x) → is_Some (h1 !! x)).
  { intros x Hx. subst h1. by rewrite Hk. }
  split_and!.
  - destruct (h !! fresh (dom h1)) eqn:Hf; [| done].
    assert (is_Some (h1 !! fresh (dom h1))) as [y Hy] by (apply Hsub; eauto).
    pose proof (fresh_None h1). congruence.
  - rewrite lookup_insert_eq. eauto.
  - intros x Hx. rewrite Hk' by auto. by apply Hk.
  - intros t. by rewrite Hp', Hp.
  - intros b. by rewrite Ht', Ht.
Qed.

Lemma set_transition_effect h b blk q :
  block_at h b = Some blk →
  let h1 := <[b := IR_Block (set_transition q blk)]> h in
  (∀ t, predecessors_of h1 t = predecessors_of h t) ∧
  transition_of h1 b = q ∧
  (∀ x, x ≠ b → transition_of h1 x = transition_of h x) ∧
  (∀ a, targets_at h1 a = targets_at h a) ∧
  (∀ a, is_Some (h1 !! a) ↔ is_Some (h !! a)) ∧
  (∀ a, a ≠ b → h1 !! a = h !! a).
Proof.
  intros Hb h1. subst h1. split_and!.
  - intros t. rewrite predecessors_of_insert. case_decide; [subst | done].
    by rewrite (predecessors_of_block _ _ _ Hb).
  - rewrite transition_of_insert. by rewrite decide_True.
  - intros x Hx. rewrite transition_of_insert. by rewrite decide_False.
  - intros a. rewrite targets_at_insert. case_decide; [subst | done].
    by rewrite (targets_at_block _ _ _ Hb).
  - intros a. destruct (decide (a = b)) as [-> | Hab].
    + rewrite lookup_insert_eq. apply block_at_Some in Hb. rewrite Hb.
      split; eauto.
    + by rewrite lookup_insert_ne.
  - intros a Hab. by rewrite lookup_insert_ne.
Qed.

Lemma predecessors_push_back_effect target p h h' :
  predecessors_push_back target p h = Returns h' →
  ∃ t, target = Some t ∧ is_Some (block_at h t) ∧
    (∀ x, predecessors_of h' x =
          predecessors_of h x ++
          if decide (target = Some x) then [p] else []) ∧
    (∀ b, transition_of h' b = transition_of h b) ∧
    (∀ a, targets_at h' a = targets_at h a) ∧
    (∀ a, is_Some (h' !! a) ↔ is_Some (h !! a)) ∧
    (∀ a, a ≠ t → h' !! a = h !! a).
Proof.
  unfold predecessors_push_back. destruct target as [t|]; [| done].
  destruct (block_at h t) as [tb|] eqn:Ht; [| done].
  intros [= <-]. exists t. split_and!; [done | eauto | ..].
  - intros x. rewrite predecessors_of_insert.
    destruct (decide (t = x)) as [-> | Htx].
    + rewrite decide_True by done. simpl.
      by rewrite (predecessors_of_block _ _ _ Ht).
    + rewrite decide_False by congruence. by rewrite app_nil_r.
  - intros b. rewrite transition_of_insert. case_decide; [subst | done].
    by rewrite (transition_of_block _ _ _ Ht).
  - intros a. rewrite targets_at_insert. case_decide; [subst | done].
    by rewrite (targets_at_block _ _ _ Ht).
  - intros a. destruct (decide (a = t)) as [-> | Hat].
    + rewrite lookup_insert_eq. apply block_at_Some in Ht. rewrite Ht.
      split; eauto.
    + by rewrite lookup_insert_ne.
  - intros a Hat. by rewrite lookup_insert_ne.
Qed.

Lemma predecessors_push_back_returns t p h :
  is_Some (block_at h t) →
  ∃ h', predecessors_push_back (Some t) p h = Returns h'.
Proof. intros [tb Ht]. unfold predecessors_push_back. rewrite Ht. eauto. Qed.

Lemma contents_push_back_effect this s h h' :
  contents_push_back this s h = Returns h' →
  (∀ t, predecessors_of h' t = predecessors_of h t) ∧
  (∀ b, transition_of h' b = transition_of h b) ∧
  (∀ a, targets_at h' a = targets_at h a) ∧
  (∀ a, is_Some (h' !! a) ↔ is_Some (h !! a)).
Proof.
  unfold contents_push_back. destruct this as [b|]; [| done].
  destruct (block_at h b) as [blk|] eqn:Hb; [| done].
  intros [= <-]. split_and!.
  - intros t. rewrite predecessors_of_insert. case_decide; [subst | done].
    by rewrite (predecessors_of_block _ _ _ Hb).
  - intros x. rewrite transition_of_insert. case_decide; [subst | done].
    by rewrite (transition_of_block _ _ _ Hb).
  - intros a. rewrite targets_at_insert. case_decide; [subst | done].
    by rewrite (targets_at_block _ _ _ Hb).
  - intros a. destruct (decide (a = b)) as [-> | Hab].
    + rewrite lookup_insert_eq. apply block_at_Some in Hb. rewrite Hb.
      split; eauto.
    + by rewrite lookup_insert_ne.
Qed.

Lemma Block_link_always_effect this next h h' :
  Block_link_always this next h = Returns h' →
  ∃ b t, this = Some b ∧ next = Some t ∧
    is_Some (block_at h b) ∧ is_Some (block_at h t) ∧
    h !! fresh (dom h) = None ∧
    h' !! fresh (dom h) = Some (IR_JumpAlways (JumpAlways_ctor next)) ∧
    transition_of h' b = Some (fresh (dom h)) ∧
    (∀ x, x ≠ b → transition_of h' x = transition_of h x) ∧
    (∀ x, predecessors_of h' x =
          predecessors_of h x ++ if decide (next = Some x) then [b] else []) ∧
    (∀ a, is_Some (h !! a) →
          is_Some (h' !! a) ∧ targets_at h' a = targets_at h a).
Proof.
  unfold Block_link_always. destruct this as [b|]; [| done].
  destruct (block_at h b) as [blk|] eqn:Hb; [| done].
  rewrite allocate_eq. set (j := fresh (dom h)).
  set (h1 := <[j := IR_JumpAlways (JumpAlways_ctor next)]> h).
  set (h2 := <[b := IR_Block (set_transition (Some j) blk)]> h1).
  intros Hpush.
  pose proof (fresh_None h) as Hj. fold j in Hj.
  destruct (insert_inert h j (IR_JumpAlways (JumpAlways_ctor next)) Hj I)
    as (Hk1 & Hp1 & Ht1). fold h1 in Hk1, Hp1, Ht1.
  assert (Hbj : b ≠ j).
  { intros ->. apply block_at_Some in Hb. congruence. }
  assert (Hb1 : block_at h1 b = Some blk).
  { subst h1. rewrite block_at_insert. by rewrite decide_False. }
  destruct (set_transition_effect h1 b blk (Some j) Hb1)
    as (Hp2 & Htb2 & Ht2 & Hg2 & Hd2 & Hk2).
  fold h2 in Hp2, Htb2, Ht2, Hg2, Hd2, Hk2.
  destruct (predecessors_push_back_effect _ _ _ _ Hpush)
    as (t & -> & Hblk & Hp3 & Ht3 & Hg3 & Hd3 & Hk3).
  assert (Htj : t ≠ j).
  { intros ->. destruct Hblk as [x Hx%block_at_Some].
    assert (is_Some (h1 !! j)) as [y Hy] by (apply Hd2; eauto).
    destruct (decide (j = b)); [congruence |].
    rewrite Hk2 in Hx by done. subst h1. rewrite lookup_insert_eq in Hx.
    congruence. }
  exists b, t. split_and!; try done.
  - destruct Hblk as [x Hx]. destruct (decide (t = b)) as [-> | Htb]; [eauto |].
    apply block_at_Some in Hx. rewrite Hk2 in Hx by done.
    subst h1. rewrite lookup_insert_ne in Hx by done.
    unfold block_at. rewrite Hx. eauto.
  - rewrite Hk3 by done. rewrite Hk2 by done. subst h1.
    by rewrite lookup_insert_eq.
  - by rewrite Ht3.
  - intros x Hx. by rewrite Ht3, Ht2, Ht1.
  - intros x. by rewrite Hp3, Hp2, Hp1.
  - intros a Ha. split.
    + apply Hd3, Hd2. subst h1. by rewrite Hk1.
    + rewrite Hg3, Hg2. unfold targets_at. subst h1. by rewrite Hk1.
Qed.

Lemma Block_link_always_returns b t h :
  is_Some (block_at h b) → is_Some (block_at h t) →
  ∃ h', Block_link_always (Some b) (Some t) h = Returns h'.
Proof.
  intros [blk Hb] [tb Ht]. unfold Block_link_always. rewrite Hb, allocate_eq.
  apply predecessors_push_back_returns.
  pose proof (fresh_None h) as Hj.
  rewrite block_at_insert. case_decide; [eauto |].
  rewrite block_at_insert. case_decide as Hjt; [| eauto].
  subst. apply block_at_Some in Ht. congruence.
Qed.

Lemma Block_link_cond_effect this cond h h' :
  Block_link_cond this cond h = Returns h' →
  ∃ b c jc y n, this = Some b ∧ cond = Some c ∧
    is_Some (block_at h b) ∧ h !! c = Some (IR_JumpCond jc) ∧
    JumpCond_yes jc = Some y ∧ JumpCond_no jc = Some n ∧
    is_Some (block_at h y) ∧ is_Some (block_at h n) ∧
    h' !! c = Some (IR_JumpCond jc) ∧
    transition_of h' b = Some c ∧
    (∀ x, x ≠ b → transition_of h' x = transition_of h x) ∧
    (∀ x, predecessors_of h' x =
          predecessors_of h x ++
          (if decide (JumpCond_yes jc = Some x) then [b] else []) ++
          (if decide (JumpCond_no jc = Some x) then [b] else [])) ∧
    (∀ a, targets_at h' a = targets_at h a) ∧
    (∀ a, is_Some (h' !! a) ↔ is_Some (h !! a)).
Proof.
  unfold Block_link_cond. destruct this as [b|]; [| done].
  destruct cond as [c|]; [| done].
  destruct (block_at h b) as [blk|] eqn:Hb; [| done].
  destruct (h !! c) as [[]|] eqn:Hc; try done. rename o into jc.
  set (h1 := <[b := IR_Block (set_transition (Some c) blk)]> h).
  destruct (set_transition_effect h b blk (Some c) Hb)
    as (Hp1 & Htb1 & Ht1 & Hg1 & Hd1 & Hk1).
  fold h1 in Hp1, Htb1, Ht1, Hg1, Hd1, Hk1.
  destruct (predecessors_push_back (JumpCond_yes jc) b h1) as [h2| |] eqn:Hyes;
    simpl; try done.
  intros Hno.
  destruct (predecessors_push_back_effect _ _ _ _ Hyes)
    as (y & Hy & Hyb & Hp2 & Ht2 & Hg2 & Hd2 & Hk2).
  destruct (predecessors_push_back_effect _ _ _ _ Hno)
    as (n & Hn & Hnb & Hp3 & Ht3 & Hg3 & Hd3 & Hk3).
  assert (Hblk1 : ∀ x, is_Some (block_at h1 x) → is_Some (block_at h x)).
  { intros x. subst h1. rewrite block_at_insert.
    case_decide; [subst; eauto | done]. }
  assert (Hblk2 : ∀ x, is_Some (block_at h2 x) → is_Some (block_at h1 x)).
  { intros x [xb Hx%block_at_Some].
    destruct (decide (x = y)) as [-> | Hxy]; [done |].
    rewrite Hk2 in Hx by done. unfold block_at. rewrite Hx. eauto. }
  assert (Hcb : c ≠ b).
  { intros ->. apply block_at_Some in Hb. congruence. }
  assert (Hc1 : h1 !! c = Some (IR_JumpCond jc)) by (by rewrite Hk1).
  assert (Hcy : c ≠ y).
  { intros ->. destruct Hyb as [x Hx%block_at_Some]. congruence. }
  assert (Hc2 : h2 !! c = Some (IR_JumpCond jc)) by (by rewrite Hk2).
  assert (Hcn : c ≠ n).
  { intros ->. destruct Hnb as [x Hx%block_at_Some]. congruence. }
  exists b, c, jc, y, n. split_and!; try done; eauto.
  - by rewrite Hk3.
  - by rewrite Ht3, Ht2.
  - intros x Hx. by rewrite Ht3, Ht2, Ht1.
  - intros x. by rewrite Hp3, Hp2, Hp1, <- app_assoc.
  - intros a. by rewrite Hg3, Hg2, Hg1.
  - intros a. by rewrite Hd3, Hd2, Hd1.
Qed.

Lemma Block_link_cond_returns b c jc y n h :
  is_Some (block_at h b) → h !! c = Some (IR_JumpCond jc) →
  JumpCond_yes jc = Some y → JumpCond_no jc = Some n →
  is_Some (block_at h y) → is_Some (block_at h n) →
  ∃ h', Block_link_cond (Some b) (Some c) h = Returns h'.
Proof.
  intros [blk Hb] Hc Hy Hn Hyb Hnb. unfold Block_link_cond.
  rewrite Hb, Hc, Hy, Hn.
  set (h1 := <[b := IR_Block (set_transition (Some c) blk)]> h).
  assert (Hblk1 : ∀ x, is_Some (block_at h x) → is_Some (block_at h1 x)).
  { intros x Hx. subst h1. rewrite block_at_insert. case_decide; eauto. }
  destruct (predecessors_push_back_returns y b h1) as [h2 Hyes]; [auto |].
  rewrite Hyes. simpl.
  apply predecessors_push_back_returns.
  unfold predecessors_push_back in Hyes.
  destruct (block_at h1 y) as [yb|] eqn:Hyb1; [| done].
  injection Hyes as <-. rewrite block_at_insert. case_decide; eauto.
Qed.

(** The effect of one operation on what a graph shows. *)
Lemma step_effect o h h' :
  step o h = Returns h' →
  (∀ a, is_Some (h !! a) →
        is_Some (h' !! a) ∧ targets_at h' a = targets_at h a) ∧
  (∀ t, predecessors_of h' t = predecessors_of h t ++ pushed o h t) ∧
  (∀ b, linker o ≠ Some b → transition_of h' b = transition_of h b) ∧
  (∀ b, linker o = Some b →
        ∃ j, transition_of h' b = Some j ∧ is_Some (h' !! j) ∧
             ∀ t, times (Some t) (targets_at h' j) = times b (pushed o h t)) ∧
  (∀ t p, p ∈ pushed o h t → linker o = Some p).
Proof.
  destruct o as [c | this cond | this next | this s]; simpl.
  - destruct (construct c h) as [[a h1]| |] eqn:Hc; simpl; try done.
    intros [= <-].
    destruct (construct_effect _ _ _ _ Hc) as (Ha & Ha' & Hk & Hp & Ht).
    split_and!.
    + intros x Hx. split.
      * rewrite Hk by done. done.
      * unfold targets_at. by rewrite Hk.
    + intros t. by rewrite Hp, app_nil_r.
    + intros b _. apply Ht.
    + done.
    + intros t p Hp'. by apply elem_of_nil in Hp'.
  - intros Hl.
    destruct (Block_link_cond_effect _ _ _ _ Hl)
      as (b & c & jc & y & n & -> & -> & Hb & Hc & Hy & Hn & Hyb & Hnb &
          Hc' & Htb & Ht & Hp & Hg & Hd).
    simpl. rewrite Hc. split_and!.
    + intros a Ha. split; [by apply Hd | apply Hg].
    + done.
    + intros x Hx. apply Ht. congruence.
    + intros x [= <-]. exists c. split_and!; [done | eauto |].
      intros t. unfold targets_at. rewrite Hc'. simpl.
      rewrite times_app.
      repeat case_decide; simpl; repeat case_decide; congruence || lia.
    + intros t p [Hin | Hin]%elem_of_app; case_decide;
        (by apply elem_of_nil in Hin) ||
        (by apply list_elem_of_singleton in Hin as ->).
  - intros Hl.
    destruct (Block_link_always_effect _ _ _ _ Hl)
      as (b & t0 & -> & -> & Hb & Ht0 & Hj & Hj' & Htb & Ht & Hp & Hg).
    simpl. split_and!.
    + done.
    + done.
    + intros x Hx. apply Ht. congruence.
    + intros x [= <-]. exists (fresh (dom h)). split_and!; [done | eauto |].
      intros t. unfold targets_at. rewrite Hj'. simpl.
      repeat case_decide; simpl; repeat case_decide; congruence || lia.
    + intros t p Hin; case_decide;
        (by apply elem_of_nil in Hin) ||
        (by apply list_elem_of_singleton in Hin as ->).
  - intros Hl.
    destruct (contents_push_back_effect _ _ _ _ Hl) as (Hp & Ht & Hg & Hd).
    split_and!.
    + intros a Ha. split; [by apply Hd | apply Hg].
    + intros t. by rewrite Hp, app_nil_r.
    + intros b _. apply Ht.
    + done.
    + intros t p Hp'. by apply elem_of_nil in Hp'.
Qed.

Lemma well_built_empty : well_built ∅.
Proof.
  split.
  - intros b j. unfold transition_of, block_at. by rewrite lookup_empty.
  - intros t p. unfold predecessors_of, block_at. rewrite lookup_empty.
    by intros ?%elem_of_nil.
Qed.

Lemma step_well_built o h h' :
  well_built h → step o h = Returns h' → well_built h'.
Proof.
  intros [Hv Hl] Hstep.
  destruct (step_effect _ _ _ Hstep) as (Hk & Hp & Hsame & Hnew & Hwho).
  split.
  - intros b j Hb. destruct (decide (linker o = Some b)) as [Hlb | Hlb].
    + destruct (Hnew b Hlb) as (j' & Hj' & Hsome & _). congruence.
    + rewrite Hsame in Hb by done. by apply Hk, (Hv b).
  - intros t p. rewrite Hp, elem_of_app. intros [Hin | Hin].
    + destruct (decide (linker o = Some p)) as [Hlp | Hlp].
      * destruct (Hnew p Hlp) as (j' & Hj' & _). congruence.
      * rewrite Hsame by done. by apply (Hl t).
    + apply Hwho in Hin. destruct (Hnew p Hin) as (j' & Hj' & _). congruence.
Qed.

Lemma run_well_built ops h h' :
  well_built h → run ops h = Returns h' → well_built h'.
Proof.
  revert h. induction ops as [|o ops IH]; simpl; intros h Hw.
  - by intros [= <-].
  - destruct (step o h) as [h1| |] eqn:Hstep; simpl; try done.
    apply IH. by eapply step_well_built.
Qed.

(** A block without transition stands in no predecessor vector. *)
Lemma unlinked_no_pred h b t :
  well_built h → transition_of h b = None → b ∉ predecessors_of h t.
Proof. intros [_ Hl] Hb Hin. by apply (Hl t b). Qed.

Lemma step_inverse_edges o h h' :
  valid_transitions h → inverse_edges h → first_link o h = true →
  step o h = Returns h' → inverse_edges h'.
Proof.
  intros Hv Hinv Hfirst Hstep b t.
  destruct (step_effect _ _ _ Hstep) as (Hk & Hp & Hsame & Hnew & Hwho).
  unfold pred_count. rewrite Hp, times_app.
  destruct (decide (linker o = Some b)) as [Hlb | Hlb].
  - unfold first_link in Hfirst. rewrite Hlb in Hfirst.
    apply bool_decide_eq_true in Hfirst.
    specialize (Hinv b t). unfold pred_count, edge_count, successors in Hinv.
    rewrite Hfirst in Hinv. simpl in Hinv. rewrite Hinv.
    destruct (Hnew b Hlb) as (j & Hj & _ & Htimes).
    unfold edge_count, successors. rewrite Hj. by rewrite Htimes.
  - rewrite (times_not_elem b (pushed o h t)).
    2:{ intros Hin%Hwho. done. }
    specialize (Hinv b t). unfold pred_count in Hinv. rewrite Hinv.
    unfold edge_count, successors. rewrite Hsame by done.
    destruct (transition_of h b) as [j|] eqn:Hj; [| done].
    destruct (Hk j (Hv _ _ Hj)) as [_ ->]. lia.
Qed.

Lemma run_inverse_edges ops h h' :
  well_built h → inverse_edges h → linked_once ops h = true →
  run ops h = Returns h' → inverse_edges h'.
Proof.
  revert h. induction ops as [|o ops IH]; simpl; intros h Hw Hinv Honce.
  - by intros [= <-].
  - apply andb_prop in Honce as [Hfirst Hrest].
    destruct (step o h) as [h1| |] eqn:Hstep; simpl; try done.
    apply IH; [by eapply step_well_built | | done].
    eapply step_inverse_edges; [apply Hw | done ..].
Qed.

Lemma run_app ops1 ops2 h :
  run (ops1 ++ ops2) h = run ops1 h ≫= run ops2.
Proof.
  revert h. induction ops1 as [|o ops1 IH]; simpl; intros h; [done |].
  destruct (step o h) as [h1| |]; simpl; [apply IH | done | done].
Qed.

Lemma run_prefix ops1 ops2 h h' :
  run (ops1 ++ ops2) h = Returns h' →
  ∃ h1, run ops1 h = Returns h1 ∧ run ops2 h1 = Returns h'.
Proof.
  rewrite run_app. destruct (run ops1 h) as [h1| |]; simpl; [eauto | done ..].
Qed.

Lemma linked_once_prefix ops1 ops2 h :
  linked_once (ops1 ++ ops2) h = true → linked_once ops1 h = true.
Proof.
  revert h. induction ops1 as [|o ops1 IH]; simpl; intros h; [done |].
  intros [Hfirst Hrest]%andb_prop. rewrite Hfirst. simpl.
  destruct (step o h) as [h1| |]; [by apply IH | done ..].
Qed.

Lemma inverse_edges_empty : inverse_edges ∅.
Proof.
  intros b t. unfold pred_count, edge_count, successors, predecessors_of,
    transition_of, block_at. by rewrite lookup_empty.
Qed.

Lemma run_all_pushed ops h h' t :
  run ops h = Returns h' →
  predecessors_of h' t = predecessors_of h t ++ all_pushed ops h t.
Proof.
  revert h. induction ops as [|o ops IH]; simpl; intros h.
  - intros [= <-]. by rewrite app_nil_r.
  - destruct (step o h) as [h1| |] eqn:Hstep; simpl; try done.
    intros Hrun. rewrite (IH _ Hrun).
    destruct (step_effect _ _ _ Hstep) as (_ & Hp & _).
    by rewrite Hp, <- app_assoc.
Qed.
End effects.

(** * The block graph *)

(** Claim C1, as it is stated, fails on a block that is linked twice: block
    0 is linked to block 1 and then to block 2; it still stands once in the
    predecessors of block 1, which its transition no longer targets. *)
Lemma relinked_not_inverse :
  run sample_relinked ∅ = Returns (built sample_relinked) ∧
  pred_count (built sample_relinked) 0 1 = 1 ∧
  edge_count (built sample_relinked) 0 1 = 0 ∧
  ¬ inverse_edges (built sample_relinked).
Proof.
  split_and!; [by vm_compute | by vm_compute | by vm_compute |].
  intros Hinv. specialize (Hinv 0 1). vm_compute in Hinv. discriminate.
Qed.

(** Claim C1, amended: for every sequence of constructions and links that
    runs to its end, each predecessor vector holds exactly the entries that
    the links of the sequence have appended, in their order (entries come
    from links only and none is removed); and when every link of the
    sequence is the first link of its block, the predecessor vectors are the
    exact inverse of the transition edges, at the end and after every
    operation on the way: [b] stands in the predecessors of [t] as many
    times as the transition of [b] targets [t]. *)
Theorem predecessors_inverse_of_edges (ops : list Op) (h : heap) :
  run ops ∅ = Returns h →
  (∀ t, predecessors_of h t = all_pushed ops ∅ t) ∧
  (linked_once ops ∅ = true →
   inverse_edges h ∧
   ∀ ops1 ops2, ops = ops1 ++ ops2 →
     ∃ h1, run ops1 ∅ = Returns h1 ∧ inverse_edges h1).
Proof.
  intros Hrun. split.
  - intros t. rewrite (run_all_pushed _ _ _ t Hrun).
    unfold predecessors_of at 1, block_at. by rewrite lookup_empty.
  - intros Honce. split.
    + by apply (run_inverse_edges ops ∅ h well_built_empty inverse_edges_empty).
    + intros ops1 ops2 ->.
      destruct (run_prefix _ _ _ _ Hrun) as (h1 & Hrun1 & _).
      exists h1. split; [done |].
      apply (run_inverse_edges ops1 ∅ h1 well_built_empty inverse_edges_empty);
        [by eapply linked_once_prefix | done].
Qed.

Lemma predecessors_inverse_of_edges_witness :
  run (sample_cond ++ [Op_link_cond (Some 0) (Some 4)]) ∅ =
    Returns (built (sample_cond ++ [Op_link_cond (Some 0) (Some 4)])) ∧
  linked_once (sample_cond ++ [Op_link_cond (Some 0) (Some 4)]) ∅ = true ∧
  (∀ t, predecessors_of
          (built (sample_cond ++ [Op_link_cond (Some 0) (Some 4)])) t =
        all_pushed (sample_cond ++ [Op_link_cond (Some 0) (Some 4)]) ∅ t) ∧
  inverse_edges (built (sample_cond ++ [Op_link_cond (Some 0) (Some 4)])) ∧
  ∃ h1, run sample_cond ∅ = Returns h1 ∧ inverse_edges h1.
Proof.
  assert (Hrun : run (sample_cond ++ [Op_link_cond (Some 0) (Some 4)]) ∅ =
    Returns (built (sample_cond ++ [Op_link_cond (Some 0) (Some 4)])))
    by (vm_compute; reflexivity).
  assert (Honce :
    linked_once (sample_cond ++ [Op_link_cond (Some 0) (Some 4)]) ∅ = true)
    by (vm_compute; reflexivity).
  destruct (predecessors_inverse_of_edges _ _ Hrun) as [Hpushed Hinv].
  destruct (Hinv Honce) as [Hend Hway].
  split; [exact Hrun |]. split; [exact Honce |].
  split; [exact Hpushed |]. split; [exact Hend |].
  exact (Hway sample_cond [Op_link_cond (Some 0) (Some 4)] eq_refl).
Defined.

(** Claim C2, as it is stated, fails when both branches of the jump go to
    the same block: block 0, not linked before, is linked to the jump at
    address 4 whose [yes] and [no] are both block 1, and then stands twice
    in the predecessors of block 1. *)
Lemma link_cond_same_target_twice :
  run sample_cond_same ∅ = Returns (built sample_cond_same) ∧
  transition_of (built sample_cond_same) 0 = None ∧
  built sample_cond_same !! 4 =
    Some (IR_JumpCond (mkJumpCond (Some 1) (Some 1) (Some 3))) ∧
  Block_link_cond (Some 0) (Some 4) (built sample_cond_same) =
    Returns (built (sample_cond_same ++ [Op_link_cond (Some 0) (Some 4)])) ∧
  predecessors_of
    (built (sample_cond_same ++ [Op_link_cond (Some 0) (Some 4)])) 1 = [0; 0] ∧
  pred_count
    (built (sample_cond_same ++ [Op_link_cond (Some 0) (Some 4)])) 0 1 ≠ 1.
Proof. split_and!; by vm_compute. Qed.

(** Claim C2, amended: in a graph built by any sequence of constructions
    and links, let [b] be a block without transition and [c] a conditional
    jump whose [yes] and [no] are the blocks [y] and [n].  Then
    [b->link(c)] returns, the transition of [b] is [c] (the jump itself,
    unchanged), and afterwards: if [y] and [n] differ, [b] stands exactly
    once in the predecessors of [y] and exactly once in those of [n]; if
    they are the same block, [b] stands exactly twice in its predecessors;
    the predecessors of every other block are as before, and [b] is not
    among them. *)
Theorem link_cond_unlinked (ops : list Op) (h : heap) (b c : loc)
    (jc : JumpCond) (y n : loc) :
  run ops ∅ = Returns h →
  is_Some (block_at h b) →
  transition_of h b = None →
  h !! c = Some (IR_JumpCond jc) →
  JumpCond_yes jc = Some y →
  JumpCond_no jc = Some n →
  is_Some (block_at h y) →
  is_Some (block_at h n) →
  ∃ h', Block_link_cond (Some b) (Some c) h = Returns h' ∧
    transition_of h' b = Some c ∧
    h' !! c = Some (IR_JumpCond jc) ∧
    (y ≠ n → pred_count h' b y = 1 ∧ pred_count h' b n = 1) ∧
    (y = n → pred_count h' b y = 2) ∧
    (∀ t, t ≠ y → t ≠ n →
          predecessors_of h' t = predecessors_of h t ∧ pred_count h' b t = 0).
Proof.
  intros Hrun Hb Hunlinked Hc Hy Hn Hyb Hnb.
  pose proof (run_well_built _ _ _ well_built_empty Hrun) as Hw.
  assert (Hzero : ∀ t, times b (predecessors_of h t) = 0).
  { intros t. apply times_not_elem. by apply unlinked_no_pred. }
  destruct (Block_link_cond_returns b c jc y n h) as [h' Hlink]; try done.
  exists h'. split; [done |].
  destruct (Block_link_cond_effect _ _ _ _ Hlink)
    as (b' & c' & jc' & y' & n' & [= <-] & [= <-] & _ & Hc' & _ & _ & _ & _ &
        Hc'' & Htb & _ & Hp & _).
  assert (jc' = jc) as -> by congruence.
  split_and!; try done.
  - intros Hyn. unfold pred_count. rewrite !Hp, !times_app, !Hzero, Hy, Hn.
    split; repeat case_decide; simpl; rewrite ?decide_True by done;
      congruence || lia.
  - intros <-. unfold pred_count. rewrite !Hp, !times_app, !Hzero, Hy, Hn.
    rewrite !decide_True by done. simpl. rewrite decide_True by done. lia.
  - intros t Hty Htn. unfold pred_count. rewrite Hp, Hy, Hn.
    rewrite !decide_False by congruence. rewrite !app_nil_r. auto.
Qed.

Lemma link_cond_unlinked_witness :
  run sample_cond ∅ = Returns (built sample_cond) ∧
  is_Some (block_at (built sample_cond) 0) ∧
  transition_of (built sample_cond) 0 = None ∧
  built sample_cond !! 4 =
    Some (IR_JumpCond (mkJumpCond (Some 1) (Some 2) (Some 3))) ∧
  is_Some (block_at (built sample_cond) 1) ∧
  is_Some (block_at (built sample_cond) 2) ∧
  ∃ h', Block_link_cond (Some 0) (Some 4) (built sample_cond) = Returns h' ∧
    transition_of h' 0 = Some 4 ∧
    h' !! 4 = Some (IR_JumpCond (mkJumpCond (Some 1) (Some 2) (Some 3))) ∧
    (1 ≠ 2 → pred_count h' 0 1 = 1 ∧ pred_count h' 0 2 = 1) ∧
    (1 = 2 → pred_count h' 0 1 = 2) ∧
    (∀ t, t ≠ 1 → t ≠ 2 →
          predecessors_of h' t = predecessors_of (built sample_cond) t ∧
          pred_count h' 0 t = 0).
Proof.
  assert (H0 : is_Some (block_at (built sample_cond) 0))
    by (vm_compute; eexists; reflexivity).
  assert (H1 : is_Some (block_at (built sample_cond) 1))
    by (vm_compute; eexists; reflexivity).
  assert (H2 : is_Some (block_at (built sample_cond) 2))
    by (vm_compute; eexists; reflexivity).
  assert (Hrun : run sample_cond ∅ = Returns (built sample_cond))
    by (vm_compute; reflexivity).
  assert (Ht : transition_of (built sample_cond) 0 = None)
    by (vm_compute; reflexivity).
  assert (Hc : built sample_cond !! 4 =
                 Some (IR_JumpCond (mkJumpCond (Some 1) (Some 2) (Some 3))))
    by (vm_compute; reflexivity).
  split; [exact Hrun |]. split; [exact H0 |]. split; [exact Ht |].
  split; [exact Hc |]. split; [exact H1 |]. split; [exact H2 |].
  exact (link_cond_unlinked sample_cond (built sample_cond) 0 4
           (mkJumpCond (Some 1) (Some 2) (Some 3)) 1 2
           Hrun H0 Ht Hc eq_refl eq_refl H1 H2).
Defined.

(** Claim C3: in a graph built by any sequence of constructions and links,
    let [b] be a block without transition and [t] a block.  Then
    [b->link(t)] returns, the transition of [b] is a [JumpAlways] whose
    destination is [t], and [b] stands exactly once in the predecessors of
    [t].  In particular, when [b] is an entry block and [t] another block,
    neither of which has a predecessor yet, the predecessors of [b] stay
    empty and those of [t] are [[b]]. *)
Theorem link_always_unlinked (ops : list Op) (h : heap) (b t : loc) :
  run ops ∅ = Returns h →
  is_Some (block_at h b) →
  transition_of h b = None →
  is_Some (block_at h t) →
  ∃ h' j, Block_link_always (Some b) (Some t) h = Returns h' ∧
    transition_of h' b = Some j ∧
    h' !! j = Some (IR_JumpAlways (mkJumpAlways (Some t))) ∧
    pred_count h' b t = 1 ∧
    (b ≠ t → predecessors_of h b = [] → predecessors_of h t = [] →
     predecessors_of h' b = [] ∧ predecessors_of h' t = [b]).
Proof.
  intros Hrun Hb Hunlinked Ht.
  pose proof (run_well_built _ _ _ well_built_empty Hrun) as Hw.
  destruct (Block_link_always_returns b t h) as [h' Hlink]; try done.
  exists h', (fresh (dom h)). split; [done |].
  destruct (Block_link_always_effect _ _ _ _ Hlink)
    as (b' & t' & [= <-] & [= <-] & _ & _ & _ & Hj & Htb & _ & Hp & _).
  split_and!; try done.
  - unfold pred_count. rewrite Hp, times_app, decide_True by done.
    rewrite times_not_elem by (by apply unlinked_no_pred). simpl.
    by rewrite decide_True.
  - intros Hbt Hpb Hpt. rewrite !Hp, Hpb, Hpt.
    rewrite decide_False by congruence. by rewrite decide_True.
Qed.

Lemma link_always_unlinked_witness :
  run sample_function ∅ = Returns (built sample_function) ∧
  is_Some (block_at (built sample_function) 0) ∧
  transition_of (built sample_function) 0 = None ∧
  is_Some (block_at (built sample_function) 4) ∧
  predecessors_of (built sample_function) 0 = [] ∧
  predecessors_of (built sample_function) 4 = [] ∧
  ∃ h' j, Block_link_always (Some 0) (Some 4) (built sample_function) =
            Returns h' ∧
    transition_of h' 0 = Some j ∧
    h' !! j = Some (IR_JumpAlways (mkJumpAlways (Some 4))) ∧
    pred_count h' 0 4 = 1 ∧
    predecessors_of h' 0 = [] ∧ predecessors_of h' 4 = [0].
Proof.
  assert (Hrun : run sample_function ∅ = Returns (built sample_function))
    by (vm_compute; reflexivity).
  assert (H0 : is_Some (block_at (built sample_function) 0))
    by (vm_compute; eexists; reflexivity).
  assert (Ht : transition_of (built sample_function) 0 = None)
    by (vm_compute; reflexivity).
  assert (H4 : is_Some (block_at (built sample_function) 4))
    by (vm_compute; eexists; reflexivity).
  assert (Hp0 : predecessors_of (built sample_function) 0 = [])
    by (vm_compute; reflexivity).
  assert (Hp4 : predecessors_of (built sample_function) 4 = [])
    by (vm_compute; reflexivity).
  split; [exact Hrun |]. split; [exact H0 |]. split; [exact Ht |].
  split; [exact H4 |]. split; [exact Hp0 |]. split; [exact Hp4 |].
  destruct (link_always_unlinked sample_function (built sample_function) 0 4
              Hrun H0 Ht H4) as (h' & j & Hlink & Htb & Hj & Hcount & Hentry).
  exists h', j.
  split; [exact Hlink |]. split; [exact Htb |]. split; [exact Hj |].
  split; [exact Hcount |]. apply Hentry; [lia | exact Hp0 | exact Hp4].
Defined.

(** The function of the sample, linked: the entry block has no
    predecessor, the other block has the entry block as its only one, and
    the transition of the entry block is the jump at address 7, a
    [JumpAlways] to the other block. *)
Example sample_function_linked :
  let h := built (sample_function ++ [Op_link_always (Some 0) (Some 4)]) in
  h !! 1 = Some (IR_FunctionRecord (mkFunctionRecord 1 0 [] [] VT_Int)) ∧
  predecessors_of h 0 = [] ∧
  predecessors_of h 4 = [0] ∧
  transition_of h 0 = Some 7 ∧
  h !! 7 = Some (IR_JumpAlways (mkJumpAlways (Some 4))).
Proof. split_and!; by vm_compute. Qed.

(** Claim C4, as it is stated, fails: block 0 already has a transition, the
    jump at address 3 to block 1; linking it to block 2 returns instead of
    failing, replaces the transition by a new jump at address 4, and
    appends block 0 to the predecessors of block 2. *)
Lemma relink_returns :
  run sample_linked ∅ = Returns (built sample_linked) ∧
  transition_of (built sample_linked) 0 = Some 3 ∧
  predecessors_of (built sample_linked) 2 = [] ∧
  Block_link_always (Some 0) (Some 2) (built sample_linked) =
    Returns (built sample_relinked) ∧
  Block_link_always (Some 0) (Some 2) (built sample_linked) ≠
    Throws AlreadyLinked ∧
  transition_of (built sample_relinked) 0 = Some 4 ∧
  predecessors_of (built sample_relinked) 2 = [0].
Proof. split_and!; by vm_compute. Qed.

(** Claim C4, amended: in a graph built by any sequence of constructions
    and links, a further link of a block [b] that already has a transition
    does not fail.  An unconditional link to a block [t] returns, replaces
    the transition of [b] by a new [JumpAlways] to [t], and appends [b] to
    the predecessors of [t]; a conditional link to a jump with branches [y]
    and [n] returns, makes that jump the transition of [b], and appends [b]
    to the predecessors of [y] and of [n].  Either way every predecessor
    vector keeps the entries it had, those of the first link included. *)
Theorem relink_replaces_transition (ops : list Op) (h : heap) (b j0 : loc) :
  run ops ∅ = Returns h →
  transition_of h b = Some j0 →
  (∀ t, is_Some (block_at h t) →
     ∃ h' j, Block_link_always (Some b) (Some t) h = Returns h' ∧
       j ≠ j0 ∧ transition_of h' b = Some j ∧
       h' !! j = Some (IR_JumpAlways (mkJumpAlways (Some t))) ∧
       ∀ x, predecessors_of h' x =
            predecessors_of h x ++ if decide (t = x) then [b] else []) ∧
  (∀ c jc y n,
     h !! c = Some (IR_JumpCond jc) →
     JumpCond_yes jc = Some y → JumpCond_no jc = Some n →
     is_Some (block_at h y) → is_Some (block_at h n) →
     ∃ h', Block_link_cond (Some b) (Some c) h = Returns h' ∧
       transition_of h' b = Some c ∧
       ∀ x, predecessors_of h' x =
            predecessors_of h x ++
            (if decide (y = x) then [b] else []) ++
            (if decide (n = x) then [b] else [])).
Proof.
  intros Hrun Hlinked.
  pose proof (run_well_built _ _ _ well_built_empty Hrun) as [Hv _].
  pose proof (transition_of_Some_block _ _ _ Hlinked) as Hb.
  split.
  - intros t Ht.
    destruct (Block_link_always_returns b t h) as [h' Hlink]; try done.
    exists h', (fresh (dom h)). split; [done |].
    destruct (Block_link_always_effect _ _ _ _ Hlink)
      as (b' & t' & [= <-] & [= <-] & _ & _ & Hfresh & Hj & Htb & _ & Hp & _).
    split_and!; try done.
    + intros Heq. destruct (Hv _ _ Hlinked) as [e He]. congruence.
    + intros x. rewrite Hp. by repeat case_decide; simplify_eq.
  - intros c jc y n Hc Hy Hn Hyb Hnb.
    destruct (Block_link_cond_returns b c jc y n h) as [h' Hlink]; try done.
    exists h'. split; [done |].
    destruct (Block_link_cond_effect _ _ _ _ Hlink)
      as (b' & c' & jc' & y' & n' & [= <-] & [= <-] & _ & Hc' & _ & _ & _ & _ &
          _ & Htb & _ & Hp & _).
    assert (jc' = jc) as -> by congruence.
    split; [done |]. intros x. rewrite Hp, Hy, Hn.
    by repeat case_decide; simplify_eq.
Qed.

Lemma relink_replaces_transition_witness :
  run sample_linked ∅ = Returns (built sample_linked) ∧
  transition_of (built sample_linked) 0 = Some 3 ∧
  is_Some (block_at (built sample_linked) 2) ∧
  ∃ h' j, Block_link_always (Some 0) (Some 2) (built sample_linked) =
            Returns h' ∧
    j ≠ 3 ∧ transition_of h' 0 = Some j ∧
    h' !! j = Some (IR_JumpAlways (mkJumpAlways (Some 2))) ∧
    ∀ x, predecessors_of h' x =
         predecessors_of (built sample_linked) x ++
         if decide (2 = x) then [0] else [].
Proof.
  assert (Hrun : run sample_linked ∅ = Returns (built sample_linked))
    by (vm_compute; reflexivity).
  assert (Ht : transition_of (built sample_linked) 0 = Some 3)
    by (vm_compute; reflexivity).
  assert (H2 : is_Some (block_at (built sample_linked) 2))
    by (vm_compute; eexists; reflexivity).
  split; [exact Hrun |]. split; [exact Ht |]. split; [exact H2 |].
  exact (proj1 (relink_replaces_transition sample_linked (built sample_linked)
                  0 3 Hrun Ht) 2 H2).
Defined.

(** * Construction of nodes *)

(** Claim C5, as it is stated, fails: a [BinOp] constructed with a null
    left operand (the right one is the constant at address 0) is returned
    as an object, with the null pointer in its [left] field; nothing is
    thrown. *)
Lemma BinOp_null_operand_constructed :
  None ∈ operands (New_BinOp None (Some 0) BO_ADD) ∧
  construct (New_BinOp None (Some 0) BO_ADD) (built sample_int) =
    Returns (1, <[1 := IR_BinOp (mkBinOp None (Some 0) BO_ADD)]>
                  (built sample_int)) ∧
  construct (New_BinOp None (Some 0) BO_ADD) (built sample_int) ≠
    Throws MalformedNode.
Proof.
  split_and!; [| by vm_compute | by vm_compute].
  simpl. apply list_elem_of_here.
Qed.

(** Claim C5, amended: every constructor call returns, whatever its
    operands, the null ones included: no [MalformedNode] is raised, and an
    object of the class is created, at an address not in use before, whose
    operand fields hold exactly the pointers that were passed. *)
Theorem construct_never_fails (c : Construction) (h : heap) :
  ∃ a h' e, construct c h = Returns (a, h') ∧
    h !! a = None ∧
    h' !! a = Some e ∧
    getType e = constructed_type c ∧
    operand_fields e = operands c.
Proof.
  assert (Hone : ∀ e, ∃ a h' e', Returns (allocate e h) = Returns (a, h') ∧
    h !! a = None ∧ h' !! a = Some e' ∧ e' = e).
  { intros e. exists (fresh (dom h)), (<[fresh (dom h) := e]> h), e.
    split_and!; [done | apply fresh_None | apply lookup_insert_eq | done]. }
  destruct c; simpl;
    try (match goal with
         | |- context [Returns (allocate ?e h)] =>
             destruct (Hone e) as (a & h' & e' & Heq & Ha & He & ->);
             by exists a, h', e
         end).
  set (e0 := fresh (dom h)).
  set (h1 := <[e0 := IR_Block (Block_ctor (toString id))]> h).
  destruct (construct_effect (New_FunctionRecord id returnType) h
              (fresh (dom h1))
              (<[fresh (dom h1) :=
                   IR_FunctionRecord (FunctionRecord_ctor id returnType e0)]> h1))
    as (Ha & _); [done |].
  eexists _, _, _. split_and!; [done | exact Ha | apply lookup_insert_eq | done ..].
Qed.

Lemma construct_never_fails_witness :
  ∃ a h' e,
    construct (New_BinOp None (Some 0) BO_ADD) (built sample_int) =
      Returns (a, h') ∧
    built sample_int !! a = None ∧
    h' !! a = Some e ∧
    getType e = IT_BinOp ∧
    operand_fields e = [None; Some 0].
Proof.
  exact (construct_never_fails (New_BinOp None (Some 0) BO_ADD)
           (built sample_int)).
Defined.

(** Claim C9: for every name, constructing a block yields, at an address
    not in use before, a block with that name, no statement, no transition
    and no predecessor; the objects that were there are untouched. *)
Theorem new_block_empty_unlinked (name : string) (h : heap) :
  ∃ a h' blk, construct (New_Block name) h = Returns (a, h') ∧
    h !! a = None ∧
    block_at h' a = Some blk ∧
    Block_name blk = name ∧
    Block_contents blk = [] ∧
    Block_getTransition blk = None ∧
    Block_predecessors blk = [] ∧
    (∀ x, x ≠ a → h' !! x = h !! x).
Proof.
  exists (fresh (dom h)), (<[fresh (dom h) := IR_Block (Block_ctor name)]> h),
    (Block_ctor name).
  split_and!; try done.
  - apply fresh_None.
  - rewrite block_at_insert. by rewrite decide_True.
  - intros x Hx. by rewrite lookup_insert_ne.
Qed.

Lemma new_block_empty_unlinked_witness :
  ∃ a h' blk, construct (New_Block "loop") (built sample_linked) =
                Returns (a, h') ∧
    built sample_linked !! a = None ∧
    block_at h' a = Some blk ∧
    Block_name blk = "loop" ∧
    Block_contents blk = [] ∧
    Block_getTransition blk = None ∧
    Block_predecessors blk = [] ∧
    (∀ x, x ≠ a → h' !! x = built sample_linked !! x).
Proof. exact (new_block_empty_unlinked "loop" (built sample_linked)). Defined.

Example toString_0 : toString 0 = "0".
Proof. reflexivity. Qed.

Example toString_65535 : toString 65535 = "65535".
Proof. reflexivity. Qed.

(** Claim C10: for every id and return type, constructing a function
    record yields a record that stores that id and that return type, with
    no parameter id and an empty string pool, and whose entry block is
    there already: a block named by the decimal rendering of the id, with
    no statement, no transition and no predecessor.  Record and entry
    block take two distinct addresses not in use before. *)
Theorem new_function_record (id : N) (returnType : VarType) (h : heap) :
  ∃ f h' fr blk,
    construct (New_FunctionRecord id returnType) h = Returns (f, h') ∧
    h !! f = None ∧
    h' !! f = Some (IR_FunctionRecord fr) ∧
    FunctionRecord_id fr = id ∧
    FunctionRecord_returnType fr = returnType ∧
    FunctionRecord_parametersIds fr = [] ∧
    FunctionRecord_pool fr = [] ∧
    h !! FunctionRecord_entry fr = None ∧
    FunctionRecord_entry fr ≠ f ∧
    block_at h' (FunctionRecord_entry fr) = Some blk ∧
    Block_name blk = toString id ∧
    Block_contents blk = [] ∧
    Block_getTransition blk = None ∧
    Block_predecessors blk = [].
Proof.
  set (e0 := fresh (dom h)).
  set (h1 := <[e0 := IR_Block (Block_ctor (toString id))]> h).
  set (f := fresh (dom h1)).
  assert (Hf1 : h1 !! f = None) by apply fresh_None.
  assert (Hne : e0 ≠ f).
  { intros Heq. rewrite <- Heq in Hf1. subst h1.
    by rewrite lookup_insert_eq in Hf1. }
  exists f, (<[f := IR_FunctionRecord (FunctionRecord_ctor id returnType e0)]> h1),
    (FunctionRecord_ctor id returnType e0), (Block_ctor (toString id)).
  split_and!; try done.
  - subst h1. by rewrite lookup_insert_ne in Hf1.
  - apply lookup_insert_eq.
  - apply fresh_None.
  - simpl. rewrite block_at_insert, decide_False by done.
    subst h1. rewrite block_at_insert. by rewrite decide_True.
Qed.

Lemma new_function_record_witness :
  ∃ f h' fr blk,
    construct (New_FunctionRecord 42 VT_Double) ∅ = Returns (f, h') ∧
    (∅ : heap) !! f = None ∧
    h' !! f = Some (IR_FunctionRecord fr) ∧
    FunctionRecord_id fr = 42%N ∧
    FunctionRecord_returnType fr = VT_Double ∧
    FunctionRecord_parametersIds fr = [] ∧
    FunctionRecord_pool fr = [] ∧
    (∅ : heap) !! FunctionRecord_entry fr = None ∧
    FunctionRecord_entry fr ≠ f ∧
    block_at h' (FunctionRecord_entry fr) = Some blk ∧
    Block_name blk = "42" ∧
    Block_contents blk = [] ∧
    Block_getTransition blk = None ∧
    Block_predecessors blk = [].
Proof. exact (new_function_record 42 VT_Double ∅). Defined.

(** * Tags, casts and dispatch *)

(** Claim C8: for every object, its [getType] returns the tag of its class;
    the test and the cast of its own class return [true] and the object
    itself ([this]); the test and the cast of every other class return
    [false] and [NULL]. *)
Theorem tag_test_cast_consistent (this : loc) (e : IrElement) :
  getType e = dynamic_type e ∧
  is_ (dynamic_type e) e = true ∧
  as_ (dynamic_type e) this e = Some this ∧
  ∀ k, k ≠ dynamic_type e → is_ k e = false ∧ as_ k this e = None.
Proof.
  split_and!; try (by destruct e).
  intros k Hk. by destruct e, k.
Qed.

Lemma tag_test_cast_consistent_witness :
  getType (IR_Int (mkInt 5)) = IT_Int ∧
  isInt (IR_Int (mkInt 5)) = true ∧
  asInt 0 (IR_Int (mkInt 5)) = Some 0 ∧
  isBlock (IR_Int (mkInt 5)) = false ∧
  asBlock 0 (IR_Int (mkInt 5)) = None.
Proof.
  destruct (tag_test_cast_consistent 0 (IR_Int (mkInt 5)))
    as (Htag & His & Has & Hother).
  split; [exact Htag |]. split; [exact His |]. split; [exact Has |].
  exact (Hother IT_Block ltac:(discriminate)).
Defined.

(** Claim C6: for every visitor and every live node, the virtual call
    [visit] runs the handler that the visitor has for the class of the
    node, on the node itself, and runs no other handler: when the call
    ends, the visitor is in the state in which that handler leaves it, and
    a visitor that records its calls has recorded exactly one, by the
    handler of that class on that node.  (The call ends in undefined
    behaviour, for want of a [return]; the handler has run by then.) *)
Theorem visit_routes_to_own_handler {S} (v : IrVisitor S) (h : heap)
    (this : loc) (e : IrElement) (s : S) (log : list (IrType * loc)) :
  h !! this = Some e →
  ∃ f, handler_of v (getType e) = Some f ∧
    IrElement_visit h (Some this) v s = Visit_undefined (f this s).1 ∧
    IrElement_visit h (Some this) (tracing v) (s, log) =
      Visit_undefined ((f this s).1, log ++ [(getType e, this)]).
Proof.
  intros He. unfold IrElement_visit. rewrite He.
  destruct e; simpl; eexists; (split; [reflexivity |]); unfold_visit;
    match goal with |- context [?g v this s] => destruct (g v this s) end;
    done.
Qed.

Lemma visit_routes_to_own_handler_witness :
  built sample_int !! 0 = Some (IR_Int (mkInt 5)) ∧
  ∃ f, handler_of identity_visitor IT_Int = Some f ∧
    IrElement_visit (built sample_int) (Some 0) identity_visitor () =
      Visit_undefined (f 0 ()).1 ∧
    IrElement_visit (built sample_int) (Some 0)
      (tracing identity_visitor) ((), []) =
      Visit_undefined ((f 0 ()).1, [(IT_Int, 0)]).
Proof.
  assert (H0 : built sample_int !! 0 = Some (IR_Int (mkInt 5)))
    by (vm_compute; reflexivity).
  split; [exact H0 |].
  exact (visit_routes_to_own_handler identity_visitor (built sample_int) 0
           (IR_Int (mkInt 5)) () [] H0).
Defined.

(** No visit returns: whatever the node, the visitor and what its handlers
    return, the call hands no value back to its caller. *)
Lemma visit_never_returns {S} (v : IrVisitor S) (h : heap) (this : ptr)
    (s : S) :
  result_of (IrElement_visit h this v s) = None.
Proof.
  unfold IrElement_visit. destruct this as [a|]; [| done].
  destruct (h !! a) as [e|]; [| done].
  destruct e; simpl; unfold_visit;
    match goal with |- context [?g v a s] => destruct (g v a s) end;
    done.
Qed.

(** Claim C7, on the code: the constant at address 0 is visited by the
    visitor whose handlers return their argument.  The handler for [Int]
    returns the node, but [visit] reaches its end without a [return]: the
    behaviour of the call is undefined, and the value of the handler is
    not what its caller receives. *)
Theorem visit_drops_handler_result :
  built sample_int !! 0 = Some (IR_Int (mkInt 5)) ∧
  visit_Int identity_visitor 0 () = ((), Some 0) ∧
  IrElement_visit (built sample_int) (Some 0) identity_visitor () =
    Visit_undefined () ∧
  result_of (IrElement_visit (built sample_int) (Some 0) identity_visitor ()) ≠
    Some (Some 0).
Proof. split_and!; by vm_compute. Qed.

(** * Further properties of the block graph *)

Section shapes.
Implicit Types (h : heap) (e : IrElement) (a b t j p : nat) (o : Op).

Lemma name_of_insert h a e x :
  name_of (<[a := e]> h) x =
  if decide (a = x) then
    match e with IR_Block y => Some (Block_name y) | _ => None end
  else name_of h x.
Proof.
  unfold name_of. rewrite block_at_insert.
  case_decide; [by destruct e | done].
Qed.

Lemma contents_of_insert h a e x :
  contents_of (<[a := e]> h) x =
  if decide (a = x) then
    match e with IR_Block y => Block_contents y | _ => [] end
  else contents_of h x.
Proof.
  unfold contents_of. rewrite block_at_insert.
  case_decide; [by destruct e | done].
Qed.

Lemma other_at_insert h a e x :
  other_at (<[a := e]> h) x =
  if decide (a = x) then
    match e with IR_Block _ => None | _ => Some e end
  else other_at h x.
Proof.
  unfold other_at. case_decide as Hax.
  - subst. rewrite lookup_insert_eq. by destruct e.
  - by rewrite lookup_insert_ne.
Qed.

Lemma obs_lookup h h' a :
  h' !! a = h !! a →
  name_of h' a = name_of h a ∧ contents_of h' a = contents_of h a ∧
  other_at h' a = other_at h a ∧
  predecessors_of h' a = predecessors_of h a ∧
  transition_of h' a = transition_of h a.
Proof.
  intros Heq.
  unfold name_of, contents_of, other_at, predecessors_of, transition_of,
    block_at.
  by rewrite Heq.
Qed.

Lemma name_of_block h a x : block_at h a = Some x → name_of h a = Some (Block_name x).
Proof. unfold name_of. by intros ->. Qed.

Lemma contents_of_block h a x :
  block_at h a = Some x → contents_of h a = Block_contents x.
Proof. unfold contents_of. by intros ->. Qed.

Lemma other_at_block h a x : block_at h a = Some x → other_at h a = None.
Proof. intros Hx%block_at_Some. unfold other_at. by rewrite Hx. Qed.

Lemma name_of_is_block h a : is_Some (name_of h a) ↔ is_Some (block_at h a).
Proof. unfold name_of. apply fmap_is_Some. Qed.

Lemma live_obs h a :
  is_Some (h !! a) ↔ is_Some (name_of h a) ∨ is_Some (other_at h a).
Proof.
  unfold name_of, other_at, block_at.
  destruct (h !! a) as [[]|]; simpl; split; intros H;
    try (by eauto); try (by destruct H as [[? [=]] | [? [=]]]).
Qed.

(** A block replaced by a block of the same name. *)
Lemma block_update_shape h b blk blk' :
  block_at h b = Some blk → Block_name blk' = Block_name blk →
  ∀ a, name_of (<[b := IR_Block blk']> h) a = name_of h a ∧
       other_at (<[b := IR_Block blk']> h) a = other_at h a ∧
       contents_of (<[b := IR_Block blk']> h) a =
         if decide (b = a) then Block_contents blk' else contents_of h a.
Proof.
  intros Hb Hname a.
  rewrite name_of_insert, other_at_insert, contents_of_insert.
  case_decide; [subst | done].
  rewrite (name_of_block _ _ _ Hb), (other_at_block _ _ _ Hb).
  by rewrite Hname.
Qed.

Lemma predecessors_push_back_shape target p h h' :
  predecessors_push_back target p h = Returns h' →
  ∀ a, name_of h' a = name_of h a ∧ contents_of h' a = contents_of h a ∧
       other_at h' a = other_at h a.
Proof.
  unfold predecessors_push_back. destruct target as [t|]; [| done].
  destruct (block_at h t) as [tb|] eqn:Ht; [| done].
  intros [= <-] a.
  destruct (block_update_shape h t tb (push_predecessor p tb) Ht eq_refl a)
    as (-> & -> & ->).
  split_and!; try done. case_decide; [subst | done].
  by rewrite (contents_of_block _ _ _ Ht).
Qed.

Lemma Block_link_cond_shape this cond h h' :
  Block_link_cond this cond h = Returns h' →
  ∀ a, name_of h' a = name_of h a ∧ contents_of h' a = contents_of h a ∧
       other_at h' a = other_at h a.
Proof.
  unfold Block_link_cond. destruct this as [b|]; [| done].
  destruct cond as [c|]; [| done].
  destruct (block_at h b) as [blk|] eqn:Hb; [| done].
  destruct (h !! c) as [[]|] eqn:Hc; try done.
  destruct (predecessors_push_back _ b _) as [h2| |] eqn:Hyes; simpl; try done.
  intros Hno a.
  destruct (predecessors_push_back_shape _ _ _ _ Hno a) as (-> & -> & ->).
  destruct (predecessors_push_back_shape _ _ _ _ Hyes a) as (-> & -> & ->).
  destruct (block_update_shape h b blk (set_transition (Some c) blk) Hb
              eq_refl a) as (-> & -> & ->).
  split_and!; try done. case_decide; [subst | done].
  by rewrite (contents_of_block _ _ _ Hb).
Qed.

Lemma Block_link_always_shape this next h h' :
  Block_link_always this next h = Returns h' →
  ∀ a, name_of h' a = name_of h a ∧ contents_of h' a = contents_of h a ∧
       other_at h' a =
         if decide (a = fresh (dom h))
         then Some (IR_JumpAlways (JumpAlways_ctor next))
         else other_at h a.
Proof.
  unfold Block_link_always. destruct this as [b|]; [| done].
  destruct (block_at h b) as [blk|] eqn:Hb; [| done].
  rewrite allocate_eq. set (j := fresh (dom h)).
  set (h1 := <[j := IR_JumpAlways (JumpAlways_ctor next)]> h).
  intros Hpush a.
  pose proof (fresh_None h) as Hj. fold j in Hj.
  assert (Hbj : j ≠ b).
  { intros ->. apply block_at_Some in Hb. congruence. }
  assert (Hb1 : block_at h1 b = Some blk).
  { subst h1. rewrite block_at_insert. by rewrite decide_False. }
  destruct (predecessors_push_back_shape _ _ _ _ Hpush a) as (-> & -> & ->).
  destruct (block_update_shape h1 b blk (set_transition (Some j) blk) Hb1
              eq_refl a) as (-> & -> & ->).
  subst h1. rewrite name_of_insert, contents_of_insert, other_at_insert.
  destruct (decide (j = a)) as [<- | Hja].
  - rewrite (decide_False (P := b = j)) by done.
    rewrite decide_True by done.
    unfold name_of, contents_of. by rewrite (block_at_None _ _ Hj).
  - rewrite (decide_False (P := a = j)) by done.
    split_and!; try done. case_decide; [subst | done].
    by rewrite (contents_of_block _ _ _ Hb).
Qed.

Lemma contents_push_back_shape this s h h' :
  contents_push_back this s h = Returns h' →
  ∃ b, this = Some b ∧ is_Some (block_at h b) ∧
    ∀ a, name_of h' a = name_of h a ∧ other_at h' a = other_at h a ∧
         contents_of h' a =
           contents_of h a ++ if decide (b = a) then [s] else [].
Proof.
  unfold contents_push_back. destruct this as [b|]; [| done].
  destruct (block_at h b) as [blk|] eqn:Hb; [| done].
  intros [= <-]. exists b. split_and!; [done | eauto |]. intros a.
  destruct (block_update_shape h b blk (push_content s blk) Hb eq_refl a)
    as (-> & -> & ->).
  split_and!; try done. case_decide; [subst | by rewrite app_nil_r].
  by rewrite (contents_of_block _ _ _ Hb).
Qed.

(** What a constructor adds to the store. *)
Lemma construct_shape c h a h' :
  construct c h = Returns (a, h') →
  h !! a = None ∧
  ((∃ e, h' = <[a := e]> h ∧ inert e ∧ getType e = constructed_type c ∧
         constructed_type c ≠ IT_FunctionRecord) ∨
   (∃ id rt b, c = New_FunctionRecord id rt ∧ h !! b = None ∧ b ≠ a ∧
      h' = <[a := IR_FunctionRecord (FunctionRecord_ctor id rt b)]>
             (<[b := IR_Block (Block_ctor (toString id))]> h))).
Proof.
  intros Hc. destruct (construct_effect _ _ _ _ Hc) as (Ha & _).
  split; [done |].
  destruct c; simpl in Hc; unfold allocate in Hc; injection Hc as <- <-;
    try (left; eexists; split_and!; [reflexivity | done ..]).
  right. exists id, returnType, (fresh (dom h)).
  split_and!; [done | apply fresh_None | | done].
  intros Heq.
  pose proof (fresh_None (<[fresh (dom h) :=
                IR_Block (Block_ctor (toString id))]> h)) as Hf.
  rewrite <- Heq in Hf. by rewrite lookup_insert_eq in Hf.
Qed.
End shapes.

Section continuation.
Implicit Types (h : heap) (e : IrElement) (a b t j p : nat) (o : Op).

Lemma other_at_Some h a e : other_at h a = Some e → h !! a = Some e.
Proof. unfold other_at. destruct (h !! a) as [[]|]; naive_solver. Qed.

Lemma other_at_not_block h a e :
  h !! a = Some e → isBlock e = false → other_at h a = Some e.
Proof. unfold other_at. intros ->. by destruct e. Qed.

(** What one operation leaves of the objects that were there. *)
Lemma step_shape o h h' :
  step o h = Returns h' →
  ∀ a, is_Some (h !! a) →
    name_of h' a = name_of h a ∧ other_at h' a = other_at h a ∧
    contents_of h' a = contents_of h a ++ appended o a.
Proof.
  destruct o as [c | this cond | this next | this s]; simpl.
  - destruct (construct c h) as [[a0 h1]| |] eqn:Hc; simpl; try done.
    intros [= <-] a Ha.
    destruct (construct_effect _ _ _ _ Hc) as (_ & _ & Hk & _).
    destruct (obs_lookup h h1 a (Hk a Ha)) as (-> & -> & -> & _).
    by rewrite app_nil_r.
  - intros Hl a _.
    destruct (Block_link_cond_shape _ _ _ _ Hl a) as (-> & -> & ->).
    by rewrite app_nil_r.
  - intros Hl a Ha.
    destruct (Block_link_always_shape _ _ _ _ Hl a) as (-> & -> & ->).
    rewrite app_nil_r. split_and!; try done.
    case_decide as Hfresh; [| done].
    subst. rewrite fresh_None in Ha. by destruct Ha.
  - intros Hl a _.
    destruct (contents_push_back_shape _ _ _ _ Hl) as (b & -> & _ & Hshape).
    by destruct (Hshape a) as (-> & -> & ->).
Qed.

Lemma step_extends o h h' : step o h = Returns h' → extends h h'.
Proof.
  intros Hstep a Ha.
  destruct (step_effect _ _ _ Hstep) as (Hk & Hp & Hsame & Hnew & _).
  destruct (step_shape _ _ _ Hstep a Ha) as (Hname & Hother & Hcont).
  split_and!; try done.
  - by apply Hk.
  - rewrite Hcont. by apply prefix_app_r.
  - rewrite Hp. by apply prefix_app_r.
  - intros Hset. destruct (decide (linker o = Some a)) as [Hl | Hl].
    + destruct (Hnew a Hl) as (j & -> & _). eauto.
    + by rewrite Hsame.
Qed.

Lemma extends_refl h : extends h h.
Proof. intros a Ha. by split_and!. Qed.

Lemma extends_trans h1 h2 h3 : extends h1 h2 → extends h2 h3 → extends h1 h3.
Proof.
  intros H12 H23 a Ha.
  destruct (H12 a Ha) as (Ha2 & Hn & Ho & Hc & Hp & Ht).
  destruct (H23 a Ha2) as (Ha3 & Hn' & Ho' & Hc' & Hp' & Ht').
  split_and!; [done | congruence | congruence | by etrans | by etrans | auto].
Qed.

Lemma extends_block h h' a :
  extends h h' → is_Some (block_at h a) → is_Some (block_at h' a).
Proof.
  intros Hext Ha. apply name_of_is_block.
  destruct (Hext a) as (_ & -> & _); [| by apply name_of_is_block].
  destruct Ha as [x Hx%block_at_Some]. eauto.
Qed.

Lemma extends_other h h' a e :
  extends h h' → h !! a = Some e → isBlock e = false → h' !! a = Some e.
Proof.
  intros Hext Ha He. apply other_at_Some.
  destruct (Hext a) as (_ & _ & -> & _); [eauto |].
  by apply other_at_not_block.
Qed.

Lemma run_extends_from ops h h' : run ops h = Returns h' → extends h h'.
Proof.
  revert h. induction ops as [|o ops IH]; simpl; intros h.
  - intros [= <-]. apply extends_refl.
  - destruct (step o h) as [h1| |] eqn:Hstep; simpl; try done.
    intros Hrun. eapply extends_trans; [by eapply step_extends | by apply IH].
Qed.

Lemma live_edges_empty : live_edges ∅.
Proof.
  intros b j. unfold transition_of, block_at. by rewrite lookup_empty.
Qed.

Lemma step_live_edges o h h' :
  live_edges h → step o h = Returns h' → live_edges h'.
Proof.
  intros Hlive Hstep b j Hb.
  pose proof (step_extends _ _ _ Hstep) as Hext.
  destruct (step_effect _ _ _ Hstep) as (_ & _ & Hsame & _).
  destruct (decide (linker o = Some b)) as [Hl | Hl].
  - destruct o as [c | this cond | this next | this s]; simpl in Hl, Hstep;
      try done; subst this.
    + destruct (Block_link_cond_effect _ _ _ _ Hstep)
        as (b' & c & jc & y & n & [= <-] & -> & _ & _ & Hy & Hn & Hyb & Hnb &
            Hc' & Htb & _).
      right. exists jc, y, n.
      assert (j = c) as -> by congruence.
      split_and!; try done; by eapply extends_block.
    + destruct (Block_link_always_effect _ _ _ _ Hstep)
        as (b' & t & [= <-] & -> & _ & Ht & _ & Hj & Htb & _).
      left. exists t. assert (j = fresh (dom h)) as -> by congruence.
      split; [done | by eapply extends_block].
  - rewrite Hsame in Hb by done.
    destruct (Hlive b j Hb) as [(t & Hj & Ht) | (jc & y & n & Hj & Hy & Hn & Hyb & Hnb)].
    + left. exists t. split; [by eapply extends_other | by eapply extends_block].
    + right. exists jc, y, n.
      split_and!; try done;
        [by eapply extends_other | by eapply extends_block ..].
Qed.

Lemma run_live_edges ops h h' :
  live_edges h → run ops h = Returns h' → live_edges h'.
Proof.
  revert h. induction ops as [|o ops IH]; simpl; intros h Hlive.
  - by intros [= <-].
  - destruct (step o h) as [h1| |] eqn:Hstep; simpl; try done.
    apply IH. by eapply step_live_edges.
Qed.

Lemma recorded_edges_empty : recorded_edges ∅.
Proof.
  intros b t. unfold pred_count, edge_count, successors, predecessors_of,
    transition_of, block_at. by rewrite lookup_empty.
Qed.

Lemma step_recorded_edges o h h' :
  valid_transitions h → recorded_edges h → step o h = Returns h' →
  recorded_edges h'.
Proof.
  intros Hv Hrec Hstep b t.
  destruct (step_effect _ _ _ Hstep) as (Hk & Hp & Hsame & Hnew & _).
  unfold pred_count. rewrite Hp, times_app.
  destruct (decide (linker o = Some b)) as [Hlb | Hlb].
  - destruct (Hnew b Hlb) as (j & Hj & _ & Htimes).
    unfold edge_count, successors. rewrite Hj, Htimes. lia.
  - specialize (Hrec b t). unfold pred_count in Hrec.
    unfold edge_count, successors in *. rewrite Hsame by done.
    destruct (transition_of h b) as [j|] eqn:Hj; [| simpl; lia].
    destruct (Hk j (Hv _ _ Hj)) as [_ ->]. lia.
Qed.

Lemma run_recorded_edges ops h h' :
  well_built h → recorded_edges h → run ops h = Returns h' →
  recorded_edges h'.
Proof.
  revert h. induction ops as [|o ops IH]; simpl; intros h Hw Hrec.
  - by intros [= <-].
  - destruct (step o h) as [h1| |] eqn:Hstep; simpl; try done.
    apply IH; [by eapply step_well_built |].
    eapply step_recorded_edges; [apply Hw | done ..].
Qed.
End continuation.

Section ownership.
Implicit Types (h : heap) (e : IrElement) (a b t j p : nat) (o : Op).

Lemma owned_jumps_empty : owned_jumps ∅.
Proof.
  intros b1 b2 j o. unfold transition_of, block_at. by rewrite lookup_empty.
Qed.

(** The transition that a link gives to its block is not a [JumpAlways]
    that any other block has. *)
Lemma step_new_transition o h h' b j x :
  valid_transitions h → step o h = Returns h' → linker o = Some b →
  transition_of h' b = Some j → h' !! j = Some (IR_JumpAlways x) →
  h !! j = None.
Proof.
  intros Hv Hstep Hl Hb Hj.
  destruct o as [c | this cond | this next | this s]; simpl in Hl, Hstep;
    try done; subst this.
  - destruct (Block_link_cond_effect _ _ _ _ Hstep)
      as (b' & c & jc & y & n & [= <-] & -> & _ & _ & _ & _ & _ & _ &
          Hc' & Htb & _).
    assert (j = c) as -> by congruence. congruence.
  - destruct (Block_link_always_effect _ _ _ _ Hstep)
      as (b' & t & [= <-] & -> & _ & _ & Hfresh & _ & Htb & _).
    assert (j = fresh (dom h)) as -> by congruence. done.
Qed.

Lemma step_owned_jumps o h h' :
  valid_transitions h → owned_jumps h → step o h = Returns h' →
  owned_jumps h'.
Proof.
  intros Hv Hown Hstep b1 b2 j x Hb1 Hb2 Hj.
  pose proof (step_extends _ _ _ Hstep) as Hext.
  destruct (step_effect _ _ _ Hstep) as (_ & _ & Hsame & _).
  destruct (decide (b1 = b2)) as [| Hne]; [done | exfalso].
  assert (Hold : ∀ b, linker o ≠ Some b → transition_of h' b = Some j →
                      is_Some (h !! j)).
  { intros b Hl Hb. rewrite Hsame in Hb by done. by eapply Hv. }
  destruct (decide (linker o = Some b1)) as [Hl1 | Hl1].
  - pose proof (step_new_transition _ _ _ _ _ _ Hv Hstep Hl1 Hb1 Hj) as Hnone.
    destruct (Hold b2) as [y Hy]; [congruence | done | congruence].
  - destruct (decide (linker o = Some b2)) as [Hl2 | Hl2].
    + pose proof (step_new_transition _ _ _ _ _ _ Hv Hstep Hl2 Hb2 Hj) as Hnone.
      destruct (Hold b1) as [y Hy]; [done | done | congruence].
    + destruct (Hold b1 Hl1 Hb1) as [y Hy].
      assert (Hj' : h !! j = Some (IR_JumpAlways x)).
      { destruct (Hext j) as (_ & _ & Ho & _); [eauto |].
        apply other_at_Some. rewrite <- Ho.
        by apply other_at_not_block. }
      apply Hne. apply (Hown b1 b2 j x); [| | done].
      * by rewrite <- Hsame.
      * by rewrite <- Hsame.
Qed.

Lemma run_owned_jumps ops h h' :
  well_built h → owned_jumps h → run ops h = Returns h' → owned_jumps h'.
Proof.
  revert h. induction ops as [|o ops IH]; simpl; intros h Hw Hown.
  - by intros [= <-].
  - destruct (step o h) as [h1| |] eqn:Hstep; simpl; try done.
    apply IH; [by eapply step_well_built |].
    eapply step_owned_jumps; [apply Hw | done ..].
Qed.

Lemma own_entries_empty : own_entries ∅.
Proof. split; intros *; by rewrite lookup_empty. Qed.

(** An operation that adds no function record keeps the records and the
    names of their entry blocks. *)
Lemma own_entries_kept h h' :
  own_entries h →
  (∀ f fr, h' !! f = Some (IR_FunctionRecord fr) →
           h !! f = Some (IR_FunctionRecord fr)) →
  (∀ a, is_Some (name_of h a) → name_of h' a = name_of h a) →
  own_entries h'.
Proof.
  intros [Hname Hdist] Hrec Hkeep. split.
  - intros f fr Hf%Hrec. rewrite Hkeep; [by eapply Hname |].
    rewrite (Hname _ _ Hf). eauto.
  - intros f1 f2 fr1 fr2 Hf1%Hrec Hf2%Hrec. by eapply Hdist.
Qed.

Lemma step_own_entries o h h' :
  own_entries h → step o h = Returns h' → own_entries h'.
Proof.
  intros Hown Hstep.
  destruct o as [c | this cond | this next | this s]; simpl in Hstep.
  - destruct (construct c h) as [[a h1]| |] eqn:Hc; simpl in Hstep; try done.
    injection Hstep as <-.
    destruct (construct_shape _ _ _ _ Hc)
      as (Ha & [(e & -> & _ & Htype & Hnot) | (id & rt & b & -> & Hb & Hba & ->)]).
    + apply (own_entries_kept h); [done | |].
      * intros f fr. destruct (decide (a = f)) as [<- | Haf].
        -- rewrite lookup_insert_eq. intros [= ->]. by rewrite <- Htype in Hnot.
        -- by rewrite lookup_insert_ne.
      * intros x Hx. rewrite name_of_insert, decide_False; [done |].
        intros ->. apply name_of_is_block in Hx as [y Hy%block_at_Some].
        congruence.
    + destruct Hown as [Hname Hdist].
      assert (Hold : ∀ x, is_Some (name_of h x) → x ≠ a ∧ x ≠ b).
      { intros x [y Hy%block_at_Some]%name_of_is_block.
        split; intros ->; congruence. }
      assert (Hrec : ∀ f fr,
        <[a := IR_FunctionRecord (FunctionRecord_ctor id rt b)]>
          (<[b := IR_Block (Block_ctor (toString id))]> h) !! f =
          Some (IR_FunctionRecord fr) →
        (f = a ∧ fr = FunctionRecord_ctor id rt b) ∨
        (f ≠ a ∧ h !! f = Some (IR_FunctionRecord fr))).
      { intros f fr. destruct (decide (a = f)) as [<- | Haf].
        - rewrite lookup_insert_eq. intros [= <-]. by left.
        - rewrite lookup_insert_ne by done.
          destruct (decide (b = f)) as [<- | Hbf].
          + by rewrite lookup_insert_eq.
          + rewrite lookup_insert_ne by done. intros Hf. right. by split. }
      assert (Hentry : ∀ f fr, h !! f = Some (IR_FunctionRecord fr) →
                is_Some (name_of h (FunctionRecord_entry fr))).
      { intros f fr Hf. rewrite (Hname _ _ Hf). eauto. }
      split.
      * intros f fr [[-> ->] | [Hfa Hf]]%Hrec; simpl.
        -- rewrite name_of_insert, decide_False by done.
           rewrite name_of_insert. by rewrite decide_True.
        -- destruct (Hold _ (Hentry _ _ Hf)) as [Hea Heb].
           rewrite !name_of_insert, !decide_False by done.
           by eapply Hname.
      * intros f1 f2 fr1 fr2 [[-> ->] | [Hfa1 Hf1]]%Hrec
                             [[-> ->] | [Hfa2 Hf2]]%Hrec; simpl; try done.
        -- intros Heq. destruct (Hold _ (Hentry _ _ Hf2)) as [_ Hne].
           congruence.
        -- intros Heq. destruct (Hold _ (Hentry _ _ Hf1)) as [_ Hne].
           congruence.
        -- by eapply Hdist.
  - apply (own_entries_kept h); [done | |].
    + intros f fr Hf.
      destruct (Block_link_cond_shape _ _ _ _ Hstep f) as (_ & _ & Ho).
      apply other_at_Some. rewrite <- Ho. by apply other_at_not_block.
    + intros a _. by destruct (Block_link_cond_shape _ _ _ _ Hstep a) as (-> & _).
  - apply (own_entries_kept h); [done | |].
    + intros f fr Hf.
      destruct (Block_link_always_shape _ _ _ _ Hstep f) as (_ & _ & Ho).
      rewrite (other_at_not_block _ _ _ Hf eq_refl) in Ho.
      case_decide; [done |]. by apply other_at_Some.
    + intros a _.
      by destruct (Block_link_always_shape _ _ _ _ Hstep a) as (-> & _).
  - destruct (contents_push_back_shape _ _ _ _ Hstep) as (b & _ & _ & Hshape).
    apply (own_entries_kept h); [done | |].
    + intros f fr Hf. destruct (Hshape f) as (_ & Ho & _).
      apply other_at_Some. rewrite <- Ho. by apply other_at_not_block.
    + intros a _. by destruct (Hshape a) as (-> & _).
Qed.

Lemma run_own_entries ops h h' :
  own_entries h → run ops h = Returns h' → own_entries h'.
Proof.
  revert h. induction ops as [|o ops IH]; simpl; intros h Hown.
  - by intros [= <-].
  - destruct (step o h) as [h1| |] eqn:Hstep; simpl; try done.
    apply IH. by eapply step_own_entries.
Qed.
End ownership.

(** Property X1: in a graph built by any sequence of constructions and
    links, the transition of a block is never dangling: it is a live
    [JumpAlways] whose destination is a live block, or a live [JumpCond]
    whose two branches are live blocks. *)
Theorem transitions_reach_live_blocks (ops : list Op) (h : heap) (b j : loc) :
  run ops ∅ = Returns h →
  transition_of h b = Some j →
  (∃ t, h !! j = Some (IR_JumpAlways (mkJumpAlways (Some t))) ∧
        is_Some (block_at h t)) ∨
  (∃ jc y n, h !! j = Some (IR_JumpCond jc) ∧
        JumpCond_yes jc = Some y ∧ JumpCond_no jc = Some n ∧
        is_Some (block_at h y) ∧ is_Some (block_at h n)).
Proof.
  intros Hrun Hb.
  by apply (run_live_edges ops ∅ h live_edges_empty Hrun b j).
Qed.

Lemma transitions_reach_live_blocks_witness :
  run sample_cond_linked ∅ = Returns (built sample_cond_linked) ∧
  transition_of (built sample_cond_linked) 0 = Some 4 ∧
  ((∃ t, built sample_cond_linked !! 4 =
           Some (IR_JumpAlways (mkJumpAlways (Some t))) ∧
         is_Some (block_at (built sample_cond_linked) t)) ∨
   (∃ jc y n, built sample_cond_linked !! 4 = Some (IR_JumpCond jc) ∧
         JumpCond_yes jc = Some y ∧ JumpCond_no jc = Some n ∧
         is_Some (block_at (built sample_cond_linked) y) ∧
         is_Some (block_at (built sample_cond_linked) n))).
Proof.
  assert (Hrun : run sample_cond_linked ∅ = Returns (built sample_cond_linked))
    by (vm_compute; reflexivity).
  assert (Ht : transition_of (built sample_cond_linked) 0 = Some 4)
    by (vm_compute; reflexivity).
  split; [exact Hrun |]. split; [exact Ht |].
  exact (transitions_reach_live_blocks sample_cond_linked
           (built sample_cond_linked) 0 4 Hrun Ht).
Defined.

(** Property X2: in a graph built by any sequence of constructions and
    links, every entry of a predecessor vector is a live block that has a
    transition (it has been linked), and the vector belongs to a live
    block. *)
Theorem predecessors_are_linked_blocks (ops : list Op) (h : heap) (t p : loc) :
  run ops ∅ = Returns h →
  p ∈ predecessors_of h t →
  is_Some (block_at h t) ∧ is_Some (block_at h p) ∧
  is_Some (transition_of h p).
Proof.
  intros Hrun Hp.
  destruct (run_well_built _ _ _ well_built_empty Hrun) as [_ Hl].
  pose proof (Hl t p Hp) as Hset.
  destruct (transition_of h p) as [j|] eqn:Hj; [| done].
  split_and!; [| by eapply transition_of_Some_block | eauto].
  unfold predecessors_of in Hp. destruct (block_at h t); [eauto |].
  by apply elem_of_nil in Hp.
Qed.

Lemma predecessors_are_linked_blocks_witness :
  run sample_relinked ∅ = Returns (built sample_relinked) ∧
  0 ∈ predecessors_of (built sample_relinked) 1 ∧
  is_Some (block_at (built sample_relinked) 1) ∧
  is_Some (block_at (built sample_relinked) 0) ∧
  is_Some (transition_of (built sample_relinked) 0).
Proof.
  assert (Hrun : run sample_relinked ∅ = Returns (built sample_relinked))
    by (vm_compute; reflexivity).
  assert (Hp : 0 ∈ predecessors_of (built sample_relinked) 1)
    by (vm_compute; apply list_elem_of_here).
  split; [exact Hrun |]. split; [exact Hp |].
  exact (predecessors_are_linked_blocks sample_relinked
           (built sample_relinked) 1 0 Hrun Hp).
Defined.

(** Property X3: whatever the sequence of constructions and links, blocks
    linked more than once included, every transition edge is recorded: the
    transition of [b] targets [t] at most as many times as [b] stands in
    the predecessors of [t]. *)
Theorem edges_are_recorded (ops : list Op) (h : heap) (b t : loc) :
  run ops ∅ = Returns h →
  edge_count h b t ≤ pred_count h b t.
Proof.
  intros Hrun.
  by apply (run_recorded_edges ops ∅ h well_built_empty recorded_edges_empty).
Qed.

Lemma edges_are_recorded_witness :
  run sample_relinked ∅ = Returns (built sample_relinked) ∧
  edge_count (built sample_relinked) 0 2 ≤
    pred_count (built sample_relinked) 0 2 ∧
  edge_count (built sample_relinked) 0 1 ≤
    pred_count (built sample_relinked) 0 1.
Proof.
  assert (Hrun : run sample_relinked ∅ = Returns (built sample_relinked))
    by (vm_compute; reflexivity).
  split; [exact Hrun |].
  split; exact (edges_are_recorded sample_relinked (built sample_relinked)
                  0 _ Hrun).
Defined.

(** Property X4: in a built graph, linking a block [b] whose transition
    targets [t1] once more, unconditionally and to another block [t2],
    always leaves a stale entry: the new transition does not target [t1],
    but [b] still stands in the predecessors of [t1], so the predecessor
    vectors are no longer the inverse of the edges. *)
Theorem relink_leaves_stale_predecessor (ops : list Op) (h : heap)
    (b t1 t2 : loc) :
  run ops ∅ = Returns h →
  0 < edge_count h b t1 →
  is_Some (block_at h t2) →
  t2 ≠ t1 →
  ∃ h', Block_link_always (Some b) (Some t2) h = Returns h' ∧
    edge_count h' b t1 = 0 ∧
    0 < pred_count h' b t1 ∧
    ¬ inverse_edges h'.
Proof.
  intros Hrun Hedge Ht2 Hne.
  pose proof (run_recorded_edges ops ∅ h well_built_empty recorded_edges_empty
                Hrun b t1) as Hrec.
  assert (Hb : is_Some (block_at h b)).
  { unfold edge_count, successors in Hedge.
    destruct (transition_of h b) as [j|] eqn:Hj; [| simpl in Hedge; lia].
    by eapply transition_of_Some_block. }
  destruct (Block_link_always_returns b t2 h) as [h' Hlink]; try done.
  exists h'. split; [done |].
  destruct (Block_link_always_effect _ _ _ _ Hlink)
    as (b' & t' & [= <-] & [= <-] & _ & _ & _ & Hj & Htb & _ & Hp & _).
  assert (Hzero : edge_count h' b t1 = 0).
  { unfold edge_count, successors, targets_at. rewrite Htb, Hj. simpl.
    rewrite decide_False by congruence. done. }
  assert (Hpos : 0 < pred_count h' b t1).
  { unfold pred_count. rewrite Hp, decide_False by congruence.
    rewrite app_nil_r. unfold pred_count in Hrec. lia. }
  split_and!; try done.
  intros Hinv. specialize (Hinv b t1). lia.
Qed.

Lemma relink_leaves_stale_predecessor_witness :
  run sample_linked ∅ = Returns (built sample_linked) ∧
  0 < edge_count (built sample_linked) 0 1 ∧
  is_Some (block_at (built sample_linked) 2) ∧
  2 ≠ 1 ∧
  ∃ h', Block_link_always (Some 0) (Some 2) (built sample_linked) =
          Returns h' ∧
    edge_count h' 0 1 = 0 ∧
    0 < pred_count h' 0 1 ∧
    ¬ inverse_edges h'.
Proof.
  assert (Hrun : run sample_linked ∅ = Returns (built sample_linked))
    by (vm_compute; reflexivity).
  assert (He : 0 < edge_count (built sample_linked) 0 1)
    by (vm_compute; lia).
  assert (H2 : is_Some (block_at (built sample_linked) 2))
    by (vm_compute; eexists; reflexivity).
  assert (Hne : 2 ≠ 1) by lia.
  split; [exact Hrun |]. split; [exact He |]. split; [exact H2 |].
  split; [exact Hne |].
  exact (relink_leaves_stale_predecessor sample_linked (built sample_linked)
           0 1 2 Hrun He H2 Hne).
Defined.

(** Property X5: [this->link(next)] returns exactly when [this] and [next]
    both point to live blocks; with a null or dangling [this] or [next] its
    behaviour is undefined.  It never throws. *)
Theorem link_always_defined_exactly (this next : ptr) (h : heap) :
  (link_always_defined this next h →
   ∃ h', Block_link_always this next h = Returns h') ∧
  (¬ link_always_defined this next h →
   Block_link_always this next h = Undefined).
Proof.
  unfold link_always_defined. split.
  - intros [Hthis Hnext].
    destruct this as [b|]; [| by destruct Hthis].
    destruct next as [t|]; [| by destruct Hnext].
    by apply Block_link_always_returns.
  - intros Hnot. unfold Block_link_always.
    destruct this as [b|]; [| done]. simpl in Hnot.
    destruct (block_at h b) as [blk|] eqn:Hb; [| done].
    rewrite allocate_eq. unfold predecessors_push_back.
    destruct next as [t|]; [| done]. simpl in Hnot.
    destruct (block_at h t) as [tb|] eqn:Ht.
    { destruct Hnot. split; eauto. }
    rewrite !block_at_insert.
    destruct (decide (b = t)) as [-> | Hbt]; [congruence |].
    case_decide; [done |]. by rewrite Ht.
Qed.

Lemma link_always_defined_exactly_witness :
  link_always_defined (Some 0) (Some 1) (built sample_blocks) ∧
  (∃ h', Block_link_always (Some 0) (Some 1) (built sample_blocks) =
           Returns h') ∧
  ¬ link_always_defined (Some 0) None (built sample_blocks) ∧
  Block_link_always (Some 0) None (built sample_blocks) = Undefined ∧
  ¬ link_always_defined (Some 0) (Some 7) (built sample_blocks) ∧
  Block_link_always (Some 0) (Some 7) (built sample_blocks) = Undefined.
Proof.
  assert (Hyes : link_always_defined (Some 0) (Some 1) (built sample_blocks))
    by (split; vm_compute; eexists; reflexivity).
  assert (Hnull : ¬ link_always_defined (Some 0) None (built sample_blocks))
    by (intros [_ [x Hx]]; vm_compute in Hx; discriminate).
  assert (Hdangling :
    ¬ link_always_defined (Some 0) (Some 7) (built sample_blocks))
    by (intros [_ [x Hx]]; vm_compute in Hx; discriminate).
  split; [exact Hyes |].
  split; [exact (proj1 (link_always_defined_exactly _ _ _) Hyes) |].
  split; [exact Hnull |].
  split; [exact (proj2 (link_always_defined_exactly _ _ _) Hnull) |].
  split; [exact Hdangling |].
  exact (proj2 (link_always_defined_exactly _ _ _) Hdangling).
Defined.

(** Property X6: [this->link(cond)] returns exactly when [this] points to
    a live block, [cond] to a live [JumpCond], and the [yes] and [no] of
    that jump to live blocks; otherwise (a null or dangling pointer
    anywhere on the way) its behaviour is undefined.  The condition of the
    jump is never looked at.  It never throws. *)
Theorem link_cond_defined_exactly (this cond : ptr) (h : heap) :
  (link_cond_defined this cond h →
   ∃ h', Block_link_cond this cond h = Returns h') ∧
  (¬ link_cond_defined this cond h →
   Block_link_cond this cond h = Undefined).
Proof.
  unfold link_cond_defined, jump_cond_at. split.
  - intros (Hthis & jc & Hcond & Hyes & Hno).
    destruct this as [b|]; [| by destruct Hthis].
    destruct cond as [c|]; [| done]. simpl in Hthis, Hcond.
    destruct (h !! c) as [[]|] eqn:Hc; try done. injection Hcond as ->.
    destruct (JumpCond_yes jc) as [y|] eqn:Hy; [| by destruct Hyes].
    destruct (JumpCond_no jc) as [n|] eqn:Hn; [| by destruct Hno].
    by apply (Block_link_cond_returns b c jc y n).
  - intros Hnot. unfold Block_link_cond.
    destruct this as [b|]; [| done].
    destruct cond as [c|]; [| done]. simpl in Hnot.
    destruct (block_at h b) as [blk|] eqn:Hb; [| done].
    destruct (h !! c) as [[]|] eqn:Hc; try done. rename o into jc.
    unfold predecessors_push_back at 2.
    destruct (JumpCond_yes jc) as [y|] eqn:Hy; [| done].
    rewrite block_at_insert.
    destruct (block_at h y) as [yb|] eqn:Hyb.
    2:{ destruct (decide (b = y)) as [-> | Hby]; [congruence | done]. }
    assert (Hy1 : ∃ yb', (if decide (b = y)
                          then Some (set_transition (Some c) blk)
                          else Some yb) = Some yb').
    { case_decide; eauto. }
    destruct Hy1 as [yb' ->]. simpl.
    unfold predecessors_push_back.
    destruct (JumpCond_no jc) as [n|] eqn:Hn; [| done].
    destruct (block_at h n) as [nb|] eqn:Hnb.
    { destruct Hnot. split; [eauto |]. exists jc.
      rewrite Hy, Hn. simpl. rewrite Hyb, Hnb. eauto. }
    rewrite !block_at_insert.
    destruct (decide (y = n)) as [-> | Hyn]; [congruence |].
    destruct (decide (b = n)) as [-> | Hbn]; [congruence |].
    by rewrite Hnb.
Qed.

Lemma link_cond_defined_exactly_witness :
  link_cond_defined (Some 0) (Some 4) (built sample_cond) ∧
  (∃ h', Block_link_cond (Some 0) (Some 4) (built sample_cond) = Returns h') ∧
  ¬ link_cond_defined (Some 0) (Some 3) (built sample_cond) ∧
  Block_link_cond (Some 0) (Some 3) (built sample_cond) = Undefined.
Proof.
  assert (Hyes : link_cond_defined (Some 0) (Some 4) (built sample_cond)).
  { split; [vm_compute; eexists; reflexivity |].
    exists (mkJumpCond (Some 1) (Some 2) (Some 3)).
    split; [vm_compute; reflexivity |].
    split; vm_compute; eexists; reflexivity. }
  assert (Hnot : ¬ link_cond_defined (Some 0) (Some 3) (built sample_cond))
    by (intros (_ & jc & Hjc & _); vm_compute in Hjc; discriminate).
  split; [exact Hyes |].
  split; [exact (proj1 (link_cond_defined_exactly _ _ _) Hyes) |].
  split; [exact Hnot |].
  exact (proj2 (link_cond_defined_exactly _ _ _) Hnot).
Defined.

(** Property X7: a link that returns changes transitions and predecessor
    vectors only.  Every block keeps its name and its statements, and
    every other object is as it was.  A conditional link creates no
    object.  An unconditional link creates exactly one: a [JumpAlways] to
    the block it was given comes to life at an address not in use before,
    it becomes the transition of the linked block, and no other object is
    created. *)
Theorem link_changes_edges_only (o : Op) (h h' : heap) :
  step o h = Returns h' →
  is_Some (linker o) →
  (∀ a, name_of h' a = name_of h a ∧ contents_of h' a = contents_of h a ∧
        (is_Some (h !! a) → other_at h' a = other_at h a)) ∧
  (∀ a, h !! a = None → is_Some (h' !! a) →
        ∃ this next, o = Op_link_always this next ∧
          h' !! a = Some (IR_JumpAlways (mkJumpAlways next))) ∧
  (∀ a1 a2, h !! a1 = None → h !! a2 = None →
        is_Some (h' !! a1) → is_Some (h' !! a2) → a1 = a2) ∧
  (∀ this cond, o = Op_link_cond this cond →
        ∀ a, h !! a = None → h' !! a = None) ∧
  (∀ this next, o = Op_link_always this next →
        ∃ j, h !! j = None ∧
          h' !! j = Some (IR_JumpAlways (mkJumpAlways next)) ∧
          this ≫= transition_of h' = Some j ∧
          ∀ a, h !! a = None → is_Some (h' !! a) → a = j).
Proof.
  intros Hstep Hlinker.
  assert (Hnew : ∀ a, h !! a = None → is_Some (h' !! a) →
            name_of h' a = name_of h a → is_Some (other_at h' a)).
  { intros a Ha Ha' Hname. apply live_obs in Ha' as [Hn | Ho]; [| done].
    rewrite Hname in Hn. unfold name_of in Hn.
    rewrite (block_at_None _ _ Ha) in Hn. by destruct Hn. }
  assert (Hnone : ∀ a, h !! a = None → other_at h a = None).
  { intros a Ha. unfold other_at. by rewrite Ha. }
  destruct o as [c | this cond | this next | this s]; simpl in Hstep, Hlinker;
    try (by destruct Hlinker).
  - pose proof (Block_link_cond_shape _ _ _ _ Hstep) as Hshape.
    assert (Hsame : ∀ a, h !! a = None → ¬ is_Some (h' !! a)).
    { intros a Ha Ha'. destruct (Hshape a) as (Hn & _ & Ho).
      destruct (Hnew a Ha Ha' Hn) as [e He]. rewrite Ho, Hnone in He; done. }
    split_and!.
    + intros a. by destruct (Hshape a) as (-> & -> & ->).
    + intros a Ha Ha'. by destruct (Hsame a).
    + intros a1 a2 Ha1 _ Ha1' _. by destruct (Hsame a1).
    + intros _ _ _ a Ha. destruct (h' !! a) eqn:Ha'; [| done].
      destruct (Hsame a Ha). eauto.
    + done.
  - pose proof (Block_link_always_shape _ _ _ _ Hstep) as Hshape.
    assert (Hfresh : ∀ a, h !! a = None → is_Some (h' !! a) →
              a = fresh (dom h)).
    { intros a Ha Ha'. destruct (Hshape a) as (Hn & _ & Ho).
      destruct (Hnew a Ha Ha' Hn) as [e He]. rewrite Ho in He.
      case_decide; [done |]. rewrite Hnone in He; done. }
    split_and!.
    + intros a. destruct (Hshape a) as (-> & -> & ->).
      split_and!; try done. intros Ha. case_decide; [subst | done].
      rewrite fresh_None in Ha. by destruct Ha.
    + intros a Ha Ha'. exists this, next. split; [done |].
      destruct (Hshape a) as (_ & _ & Ho).
      rewrite decide_True in Ho by auto. by apply other_at_Some.
    + intros a1 a2 Ha1 Ha2 Ha1' Ha2'.
      rewrite (Hfresh a1), (Hfresh a2); done.
    + done.
    + intros this' next' [= <- <-].
      destruct (Block_link_always_effect _ _ _ _ Hstep)
        as (b & t & -> & -> & _ & _ & Hj & Hj' & Htb & _).
      exists (fresh (dom h)). by split_and!.
Qed.

Lemma link_changes_edges_only_witness :
  step (Op_link_always (Some 0) (Some 1)) (built sample_blocks) =
    Returns (built sample_linked) ∧
  is_Some (linker (Op_link_always (Some 0) (Some 1))) ∧
  (∀ a, name_of (built sample_linked) a = name_of (built sample_blocks) a ∧
        contents_of (built sample_linked) a =
          contents_of (built sample_blocks) a ∧
        (is_Some (built sample_blocks !! a) →
         other_at (built sample_linked) a = other_at (built sample_blocks) a)) ∧
  ∃ j, built sample_blocks !! j = None ∧
    built sample_linked !! j = Some (IR_JumpAlways (mkJumpAlways (Some 1))) ∧
    Some 0 ≫= transition_of (built sample_linked) = Some j ∧
    ∀ a, built sample_blocks !! a = None →
         is_Some (built sample_linked !! a) → a = j.
Proof.
  assert (Hstep : step (Op_link_always (Some 0) (Some 1)) (built sample_blocks) =
                    Returns (built sample_linked))
    by (vm_compute; reflexivity).
  assert (Hl : is_Some (linker (Op_link_always (Some 0) (Some 1))))
    by (eexists; reflexivity).
  destruct (link_changes_edges_only _ _ _ Hstep Hl)
    as (Hkeep & _ & _ & _ & Hone).
  split; [exact Hstep |]. split; [exact Hl |]. split; [exact Hkeep |].
  exact (Hone (Some 0) (Some 1) eq_refl).
Defined.

(** Property X8: whatever operations follow, no object is lost or
    rewritten.  After any sequence of constructions, links and appended
    statements that runs to its end from a store [h], every object of [h]
    is still live; one that is not a block (a jump, an atom, an expression,
    a statement, a function record) is exactly as it was; a block has the
    same name, its statements and its predecessors are the old ones with
    entries added at the end only, and a transition that was set is still
    set. *)
Theorem construction_only_appends (ops : list Op) (h h' : heap) (a : loc) :
  run ops h = Returns h' →
  is_Some (h !! a) →
  is_Some (h' !! a) ∧
  name_of h' a = name_of h a ∧
  other_at h' a = other_at h a ∧
  contents_of h a `prefix_of` contents_of h' a ∧
  predecessors_of h a `prefix_of` predecessors_of h' a ∧
  (is_Some (transition_of h a) → is_Some (transition_of h' a)).
Proof. intros Hrun Ha. by apply (run_extends_from ops h h' Hrun a). Qed.

Lemma construction_only_appends_witness :
  run [Op_contents_push_back (Some 1) (Some 3);
       Op_link_always (Some 0) (Some 2)] (built sample_linked) =
    Returns (built (sample_linked ++
                    [Op_contents_push_back (Some 1) (Some 3);
                     Op_link_always (Some 0) (Some 2)])) ∧
  is_Some (built sample_linked !! 1) ∧
  name_of (built (sample_linked ++
                  [Op_contents_push_back (Some 1) (Some 3);
                   Op_link_always (Some 0) (Some 2)])) 1 =
    name_of (built sample_linked) 1 ∧
  predecessors_of (built sample_linked) 1 `prefix_of`
    predecessors_of (built (sample_linked ++
                            [Op_contents_push_back (Some 1) (Some 3);
                             Op_link_always (Some 0) (Some 2)])) 1.
Proof.
  assert (Hrun :
    run [Op_contents_push_back (Some 1) (Some 3);
         Op_link_always (Some 0) (Some 2)] (built sample_linked) =
    Returns (built (sample_linked ++
                    [Op_contents_push_back (Some 1) (Some 3);
                     Op_link_always (Some 0) (Some 2)])))
    by (vm_compute; reflexivity).
  assert (H1 : is_Some (built sample_linked !! 1))
    by (vm_compute; eexists; reflexivity).
  destruct (construction_only_appends _ _ _ 1 Hrun H1)
    as (_ & Hname & _ & _ & Hpred & _).
  split; [exact Hrun |]. split; [exact H1 |].
  split; [exact Hname | exact Hpred].
Defined.

(** Property X9: in a store built by any sequence of operations, every
    function record has its own entry block: the entry is a live block
    whose name is the rendering of the id of the record, and two different
    records never have the same entry block. *)
Theorem function_records_own_their_entry (ops : list Op) (h : heap) :
  run ops ∅ = Returns h →
  (∀ f fr, h !! f = Some (IR_FunctionRecord fr) →
     ∃ blk, block_at h (FunctionRecord_entry fr) = Some blk ∧
       Block_name blk = toString (FunctionRecord_id fr)) ∧
  (∀ f1 f2 fr1 fr2,
     h !! f1 = Some (IR_FunctionRecord fr1) →
     h !! f2 = Some (IR_FunctionRecord fr2) →
     f1 ≠ f2 → FunctionRecord_entry fr1 ≠ FunctionRecord_entry fr2).
Proof.
  intros Hrun.
  destruct (run_own_entries ops ∅ h own_entries_empty Hrun) as [Hname Hdist].
  split.
  - intros f fr Hf. specialize (Hname f fr Hf). unfold name_of in Hname.
    destruct (block_at h (FunctionRecord_entry fr)) as [blk|]; [| done].
    exists blk. split; [done | by injection Hname].
  - intros f1 f2 fr1 fr2 Hf1 Hf2 Hne Heq. apply Hne. by eapply Hdist.
Qed.

Lemma function_records_own_their_entry_witness :
  run (sample_functions ++ [Op_link_always (Some 0) (Some 2)]) ∅ =
    Returns (built (sample_functions ++ [Op_link_always (Some 0) (Some 2)])) ∧
  built (sample_functions ++ [Op_link_always (Some 0) (Some 2)]) !! 1 =
    Some (IR_FunctionRecord (mkFunctionRecord 1 0 [] [] VT_Int)) ∧
  built (sample_functions ++ [Op_link_always (Some 0) (Some 2)]) !! 3 =
    Some (IR_FunctionRecord (mkFunctionRecord 2 2 [] [] VT_Bot)) ∧
  (∃ blk, block_at
            (built (sample_functions ++ [Op_link_always (Some 0) (Some 2)]))
            0 = Some blk ∧
          Block_name blk = "1") ∧
  (0 : nat) ≠ 2.
Proof.
  assert (Hrun :
    run (sample_functions ++ [Op_link_always (Some 0) (Some 2)]) ∅ =
    Returns (built (sample_functions ++ [Op_link_always (Some 0) (Some 2)])))
    by (vm_compute; reflexivity).
  assert (H1 :
    built (sample_functions ++ [Op_link_always (Some 0) (Some 2)]) !! 1 =
    Some (IR_FunctionRecord (mkFunctionRecord 1 0 [] [] VT_Int)))
    by (vm_compute; reflexivity).
  assert (H3 :
    built (sample_functions ++ [Op_link_always (Some 0) (Some 2)]) !! 3 =
    Some (IR_FunctionRecord (mkFunctionRecord 2 2 [] [] VT_Bot)))
    by (vm_compute; reflexivity).
  destruct (function_records_own_their_entry _ _ Hrun) as [Hname Hdist].
  split; [exact Hrun |]. split; [exact H1 |]. split; [exact H3 |].
  split; [exact (Hname 1 _ H1) |].
  exact (Hdist 1 3 _ _ H1 H3 ltac:(lia)).
Defined.

(** Property X10: a transition is immutable as long as no block is linked
    twice: if every link of a sequence is the first link of its block, a
    transition that is set before the sequence is the same jump after
    it. *)
Theorem transition_kept_when_linked_once (ops : list Op) (h h' : heap)
    (b j : loc) :
  run ops h = Returns h' →
  linked_once ops h = true →
  transition_of h b = Some j →
  transition_of h' b = Some j.
Proof.
  revert h. induction ops as [|o ops IH]; simpl; intros h Hrun Honce Hb.
  - by injection Hrun as <-.
  - apply andb_prop in Honce as [Hfirst Hrest].
    destruct (step o h) as [h1| |] eqn:Hstep; simpl in Hrun; try done.
    apply (IH h1); [done | done |].
    destruct (step_effect _ _ _ Hstep) as (_ & _ & Hsame & _).
    rewrite Hsame; [done |]. intros Hl.
    unfold first_link in Hfirst. rewrite Hl in Hfirst.
    apply bool_decide_eq_true in Hfirst. congruence.
Qed.

Lemma transition_kept_when_linked_once_witness :
  run [Op_new (New_Block "d"); Op_link_cond (Some 1) (Some 4)]
      (built sample_cond_linked) =
    Returns (built (sample_cond_linked ++
                    [Op_new (New_Block "d"); Op_link_cond (Some 1) (Some 4)])) ∧
  linked_once [Op_new (New_Block "d"); Op_link_cond (Some 1) (Some 4)]
      (built sample_cond_linked) = true ∧
  transition_of (built sample_cond_linked) 0 = Some 4 ∧
  transition_of (built (sample_cond_linked ++
                   [Op_new (New_Block "d"); Op_link_cond (Some 1) (Some 4)]))
    0 = Some 4.
Proof.
  assert (Hrun :
    run [Op_new (New_Block "d"); Op_link_cond (Some 1) (Some 4)]
        (built sample_cond_linked) =
    Returns (built (sample_cond_linked ++
                    [Op_new (New_Block "d"); Op_link_cond (Some 1) (Some 4)])))
    by (vm_compute; reflexivity).
  assert (Honce :
    linked_once [Op_new (New_Block "d"); Op_link_cond (Some 1) (Some 4)]
      (built sample_cond_linked) = true)
    by (vm_compute; reflexivity).
  assert (Ht : transition_of (built sample_cond_linked) 0 = Some 4)
    by (vm_compute; reflexivity).
  split; [exact Hrun |]. split; [exact Honce |]. split; [exact Ht |].
  exact (transition_kept_when_linked_once _ _ _ 0 4 Hrun Honce Ht).
Defined.

(** The facts of a conditional link that returns, with the jump named. *)
Lemma Block_link_cond_inversion b c h h' :
  Block_link_cond (Some b) (Some c) h = Returns h' →
  ∃ jc y n,
    is_Some (block_at h b) ∧ h !! c = Some (IR_JumpCond jc) ∧
    JumpCond_yes jc = Some y ∧ JumpCond_no jc = Some n ∧
    is_Some (block_at h y) ∧ is_Some (block_at h n) ∧
    transition_of h' b = Some c ∧
    (∀ x, x ≠ b → transition_of h' x = transition_of h x) ∧
    (∀ x, predecessors_of h' x =
          predecessors_of h x ++
          (if decide (Some y = Some x) then [b] else []) ++
          (if decide (Some n = Some x) then [b] else [])).
Proof.
  intros Hlink.
  destruct (Block_link_cond_effect _ _ _ _ Hlink)
    as (b' & c' & jc & y & n & [= <-] & [= <-] & Hb & Hc & Hy & Hn & Hyb &
        Hnb & _ & Htb & Ht & Hp & _).
  exists jc, y, n. rewrite Hy, Hn in Hp. by split_and!.
Qed.

(** Property X11: conditional links of two different blocks commute.  If
    linking [b1] and then [b2] returns, so does linking [b2] and then
    [b1], and both orders give every block the same transition, the same
    name and statements, the same other objects, and predecessor vectors
    with the same entries (up to their order). *)
Theorem link_cond_commutes (h h1 h12 : heap) (b1 b2 c1 c2 : loc) :
  b1 ≠ b2 →
  Block_link_cond (Some b1) (Some c1) h = Returns h1 →
  Block_link_cond (Some b2) (Some c2) h1 = Returns h12 →
  ∃ h2 h21,
    Block_link_cond (Some b2) (Some c2) h = Returns h2 ∧
    Block_link_cond (Some b1) (Some c1) h2 = Returns h21 ∧
    ∀ x, transition_of h21 x = transition_of h12 x ∧
         predecessors_of h21 x ≡ₚ predecessors_of h12 x ∧
         name_of h21 x = name_of h12 x ∧
         contents_of h21 x = contents_of h12 x ∧
         other_at h21 x = other_at h12 x.
Proof.
  intros Hne Hl1 Hl12.
  pose proof (Block_link_cond_shape _ _ _ _ Hl1) as Hs1.
  pose proof (Block_link_cond_shape _ _ _ _ Hl12) as Hs12.
  destruct (Block_link_cond_inversion _ _ _ _ Hl1)
    as (jc1 & y1 & n1 & Hb1 & Hc1 & Hy1 & Hn1 & Hyb1 & Hnb1 & Htb1 & Ht1 & Hp1).
  destruct (Block_link_cond_inversion _ _ _ _ Hl12)
    as (jc2 & y2 & n2 & Hb2 & Hc2 & Hy2 & Hn2 & Hyb2 & Hnb2 & Htb2 & Ht2 & Hp2).
  assert (Hblock : ∀ g g' x,
            (∀ a, name_of g' a = name_of g a ∧ contents_of g' a = contents_of g a ∧
                  other_at g' a = other_at g a) →
            is_Some (block_at g x) ↔ is_Some (block_at g' x)).
  { intros g g' x Hs. rewrite <- !name_of_is_block.
    by destruct (Hs x) as (-> & _). }
  assert (Hjump : ∀ g g' x jc,
            (∀ a, name_of g' a = name_of g a ∧ contents_of g' a = contents_of g a ∧
                  other_at g' a = other_at g a) →
            g !! x = Some (IR_JumpCond jc) ↔ g' !! x = Some (IR_JumpCond jc)).
  { intros g g' x jc Hs. destruct (Hs x) as (_ & _ & Ho).
    split; intros Hx; apply other_at_Some.
    - rewrite Ho. by apply other_at_not_block.
    - rewrite <- Ho. by apply other_at_not_block. }
  destruct (Block_link_cond_returns b2 c2 jc2 y2 n2 h) as [h2 Hl2];
    try done; try (by eapply Hblock); try (by eapply Hjump).
  pose proof (Block_link_cond_shape _ _ _ _ Hl2) as Hs2.
  destruct (Block_link_cond_returns b1 c1 jc1 y1 n1 h2) as [h21 Hl21];
    try done; try (by apply (Hblock h h2)); try (by apply (Hjump h h2)).
  pose proof (Block_link_cond_shape _ _ _ _ Hl21) as Hs21.
  exists h2, h21. split; [done |]. split; [done |].
  destruct (Block_link_cond_inversion _ _ _ _ Hl2)
    as (jc2' & y2' & n2' & _ & Hc2' & Hy2' & Hn2' & _ & _ & Htb2' & Ht2' & Hp2').
  destruct (Block_link_cond_inversion _ _ _ _ Hl21)
    as (jc1' & y1' & n1' & _ & Hc1' & Hy1' & Hn1' & _ & _ & Htb21 & Ht21 & Hp21).
  assert (jc2' = jc2) as ->.
  { apply (Hjump h h1) in Hc2'; [congruence | done]. }
  assert (jc1' = jc1) as ->.
  { apply (Hjump h h2) in Hc1; [congruence | done]. }
  assert (y2' = y2) as -> by congruence.
  assert (n2' = n2) as -> by congruence.
  assert (y1' = y1) as -> by congruence.
  assert (n1' = n1) as -> by congruence.
  intros x. split_and!.
  - destruct (decide (x = b1)) as [-> | Hx1].
    + rewrite Htb21, Ht2 by done. done.
    + rewrite Ht21 by done. destruct (decide (x = b2)) as [-> | Hx2].
      * by rewrite Htb2', Htb2.
      * by rewrite Ht2', Ht2, Ht1.
  - rewrite Hp21, Hp2', Hp2, Hp1.
    match goal with
    | |- (?P ++ ?A ++ ?B) ++ ?C ++ ?D ≡ₚ _ =>
        rewrite <- !app_assoc; apply Permutation_app_head;
        rewrite (app_assoc A B), (app_assoc C D); apply Permutation_app_comm
    end.
  - destruct (Hs21 x) as (-> & _), (Hs2 x) as (-> & _),
      (Hs12 x) as (-> & _), (Hs1 x) as (-> & _). done.
  - destruct (Hs21 x) as (_ & -> & _), (Hs2 x) as (_ & -> & _),
      (Hs12 x) as (_ & -> & _), (Hs1 x) as (_ & -> & _). done.
  - destruct (Hs21 x) as (_ & _ & ->), (Hs2 x) as (_ & _ & ->),
      (Hs12 x) as (_ & _ & ->), (Hs1 x) as (_ & _ & ->). done.
Qed.

Lemma link_cond_commutes_witness :
  (0 : nat) ≠ 1 ∧
  Block_link_cond (Some 0) (Some 4) (built sample_cond) =
    Returns (built sample_cond_linked) ∧
  Block_link_cond (Some 1) (Some 4) (built sample_cond_linked) =
    Returns (built (sample_cond_linked ++ [Op_link_cond (Some 1) (Some 4)])) ∧
  ∃ h2 h21,
    Block_link_cond (Some 1) (Some 4) (built sample_cond) = Returns h2 ∧
    Block_link_cond (Some 0) (Some 4) h2 = Returns h21 ∧
    ∀ x, transition_of h21 x =
           transition_of
             (built (sample_cond_linked ++ [Op_link_cond (Some 1) (Some 4)])) x ∧
         predecessors_of h21 x ≡ₚ
           predecessors_of
             (built (sample_cond_linked ++ [Op_link_cond (Some 1) (Some 4)])) x ∧
         name_of h21 x =
           name_of
             (built (sample_cond_linked ++ [Op_link_cond (Some 1) (Some 4)])) x ∧
         contents_of h21 x =
           contents_of
             (built (sample_cond_linked ++ [Op_link_cond (Some 1) (Some 4)])) x ∧
         other_at h21 x =
           other_at
             (built (sample_cond_linked ++ [Op_link_cond (Some 1) (Some 4)])) x.
Proof.
  assert (Hne : (0 : nat) ≠ 1) by lia.
  assert (H1 : Block_link_cond (Some 0) (Some 4) (built sample_cond) =
                 Returns (built sample_cond_linked))
    by (vm_compute; reflexivity).
  assert (H2 : Block_link_cond (Some 1) (Some 4) (built sample_cond_linked) =
    Returns (built (sample_cond_linked ++ [Op_link_cond (Some 1) (Some 4)])))
    by (vm_compute; reflexivity).
  split; [exact Hne |]. split; [exact H1 |]. split; [exact H2 |].
  exact (link_cond_commutes _ _ _ 0 1 4 4 Hne H1 H2).
Defined.

(** Property X12: constructing a node creates no edge.  In a built graph,
    after any constructor call every edge count and every predecessor
    count is what it was, and the new object is isolated: no transition
    targets it, it stands in no predecessor vector, and it has neither a
    transition nor a predecessor of its own. *)
Theorem construction_creates_no_edge (ops : list Op) (h h' : heap)
    (c : Construction) (a : loc) :
  run ops ∅ = Returns h →
  construct c h = Returns (a, h') →
  (∀ b t, edge_count h' b t = edge_count h b t ∧
          pred_count h' b t = pred_count h b t) ∧
  (∀ b, edge_count h' b a = 0 ∧ pred_count h' a b = 0 ∧
        edge_count h' a b = 0 ∧ pred_count h' b a = 0).
Proof.
  intros Hrun Hc.
  pose proof (run_well_built _ _ _ well_built_empty Hrun) as [Hv Hl].
  pose proof (run_recorded_edges ops ∅ h well_built_empty recorded_edges_empty
                Hrun) as Hrec.
  destruct (construct_effect _ _ _ _ Hc) as (Ha & _ & Hk & Hp & Ht).
  assert (Hsame : ∀ b t, edge_count h' b t = edge_count h b t ∧
                         pred_count h' b t = pred_count h b t).
  { intros b t. unfold edge_count, pred_count, successors. rewrite Hp, Ht.
    split; [| done]. destruct (transition_of h b) as [j|] eqn:Hj; [| done].
    unfold targets_at. by rewrite (Hk j (Hv _ _ Hj)). }
  split; [done |]. intros b.
  destruct (Hsame b a) as [-> ->], (Hsame a b) as [-> ->].
  assert (Hpa : pred_count h b a = 0).
  { unfold pred_count, predecessors_of. by rewrite (block_at_None _ _ Ha). }
  assert (Hea : edge_count h a b = 0).
  { unfold edge_count, successors, transition_of.
    by rewrite (block_at_None _ _ Ha). }
  split_and!; try done.
  - specialize (Hrec b a). lia.
  - unfold pred_count. apply times_not_elem. intros Hin.
    apply (Hl b a Hin). unfold transition_of.
    by rewrite (block_at_None _ _ Ha).
Qed.

Lemma construction_creates_no_edge_witness :
  run sample_linked ∅ = Returns (built sample_linked) ∧
  construct (New_Block "d") (built sample_linked) =
    Returns (4, built (sample_linked ++ [Op_new (New_Block "d")])) ∧
  (∀ b t, edge_count (built (sample_linked ++ [Op_new (New_Block "d")])) b t =
            edge_count (built sample_linked) b t ∧
          pred_count (built (sample_linked ++ [Op_new (New_Block "d")])) b t =
            pred_count (built sample_linked) b t) ∧
  (∀ b, edge_count (built (sample_linked ++ [Op_new (New_Block "d")])) b 4 = 0 ∧
        pred_count (built (sample_linked ++ [Op_new (New_Block "d")])) 4 b = 0 ∧
        edge_count (built (sample_linked ++ [Op_new (New_Block "d")])) 4 b = 0 ∧
        pred_count (built (sample_linked ++ [Op_new (New_Block "d")])) b 4 = 0).
Proof.
  assert (Hrun : run sample_linked ∅ = Returns (built sample_linked))
    by (vm_compute; reflexivity).
  assert (Hc : construct (New_Block "d") (built sample_linked) =
                 Returns (4, built (sample_linked ++ [Op_new (New_Block "d")])))
    by (vm_compute; reflexivity).
  split; [exact Hrun |]. split; [exact Hc |].
  exact (construction_creates_no_edge _ _ _ _ _ Hrun Hc).
Defined.

(** Property X13: a [JumpAlways] belongs to one block.  In a built graph
    two different blocks never have the same [JumpAlways] as their
    transition: each unconditional link makes a jump of its own. *)
Theorem jump_always_has_one_owner (ops : list Op) (h : heap) (b1 b2 j : loc)
    (x : JumpAlways) :
  run ops ∅ = Returns h →
  transition_of h b1 = Some j →
  transition_of h b2 = Some j →
  h !! j = Some (IR_JumpAlways x) →
  b1 = b2.
Proof.
  intros Hrun.
  apply (run_owned_jumps ops ∅ h well_built_empty owned_jumps_empty Hrun).
Qed.

Lemma jump_always_has_one_owner_witness :
  run (sample_linked ++ [Op_link_always (Some 1) (Some 1)]) ∅ =
    Returns (built (sample_linked ++ [Op_link_always (Some 1) (Some 1)])) ∧
  transition_of (built (sample_linked ++ [Op_link_always (Some 1) (Some 1)]))
    1 = Some 4 ∧
  built (sample_linked ++ [Op_link_always (Some 1) (Some 1)]) !! 4 =
    Some (IR_JumpAlways (mkJumpAlways (Some 1))) ∧
  (1 : nat) = 1.
Proof.
  assert (Hrun :
    run (sample_linked ++ [Op_link_always (Some 1) (Some 1)]) ∅ =
    Returns (built (sample_linked ++ [Op_link_always (Some 1) (Some 1)])))
    by (vm_compute; reflexivity).
  assert (Ht :
    transition_of (built (sample_linked ++ [Op_link_always (Some 1) (Some 1)]))
      1 = Some 4)
    by (vm_compute; reflexivity).
  assert (Hj :
    built (sample_linked ++ [Op_link_always (Some 1) (Some 1)]) !! 4 =
    Some (IR_JumpAlways (mkJumpAlways (Some 1))))
    by (vm_compute; reflexivity).
  split; [exact Hrun |]. split; [exact Ht |]. split; [exact Hj |].
  exact (jump_always_has_one_owner _ _ 1 1 4 _ Hrun Ht Ht Hj).
Defined.

(** A [JumpCond], unlike a [JumpAlways], can be the transition of several
    blocks: blocks 0 and 1 are both linked through the jump at address
    4. *)
Example jump_cond_shared :
  let h := built (sample_cond_linked ++ [Op_link_cond (Some 1) (Some 4)]) in
  transition_of h 0 = Some 4 ∧ transition_of h 1 = Some 4 ∧
  predecessors_of h 1 = [0; 1] ∧ predecessors_of h 2 = [0; 1].
Proof. split_and!; by vm_compute. Qed.

(** Property X14: linking a block once more, unconditionally, orphans its
    previous [JumpAlways]: that jump is still live and unchanged, but it is
    the transition of no block any more. *)
Theorem relink_orphans_jump (ops : list Op) (h : heap) (b j0 t : loc)
    (x : JumpAlways) :
  run ops ∅ = Returns h →
  transition_of h b = Some j0 →
  h !! j0 = Some (IR_JumpAlways x) →
  is_Some (block_at h t) →
  ∃ h', Block_link_always (Some b) (Some t) h = Returns h' ∧
    h' !! j0 = Some (IR_JumpAlways x) ∧
    ∀ y, transition_of h' y ≠ Some j0.
Proof.
  intros Hrun Hb Hj0 Ht.
  pose proof (run_owned_jumps ops ∅ h well_built_empty owned_jumps_empty Hrun)
    as Hown.
  pose proof (transition_of_Some_block _ _ _ Hb) as Hblk.
  destruct (Block_link_always_returns b t h) as [h' Hlink]; try done.
  exists h'. split; [done |].
  destruct (Block_link_always_effect _ _ _ _ Hlink)
    as (b' & t' & [= <-] & [= <-] & _ & _ & Hfresh & _ & Htb & Hsame & _).
  assert (Hne : j0 ≠ fresh (dom h)) by congruence.
  split.
  - destruct (Block_link_always_shape _ _ _ _ Hlink j0) as (_ & _ & Ho).
    rewrite decide_False in Ho by done. apply other_at_Some. rewrite Ho.
    by apply other_at_not_block.
  - intros y Hy. destruct (decide (y = b)) as [-> | Hyb]; [congruence |].
    rewrite Hsame in Hy by done. apply Hyb.
    by apply (Hown y b j0 x).
Qed.

Lemma relink_orphans_jump_witness :
  run sample_linked ∅ = Returns (built sample_linked) ∧
  transition_of (built sample_linked) 0 = Some 3 ∧
  built sample_linked !! 3 = Some (IR_JumpAlways (mkJumpAlways (Some 1))) ∧
  is_Some (block_at (built sample_linked) 2) ∧
  ∃ h', Block_link_always (Some 0) (Some 2) (built sample_linked) =
          Returns h' ∧
    h' !! 3 = Some (IR_JumpAlways (mkJumpAlways (Some 1))) ∧
    ∀ y, transition_of h' y ≠ Some 3.
Proof.
  assert (Hrun : run sample_linked ∅ = Returns (built sample_linked))
    by (vm_compute; reflexivity).
  assert (Ht : transition_of (built sample_linked) 0 = Some 3)
    by (vm_compute; reflexivity).
  assert (Hj : built sample_linked !! 3 =
                 Some (IR_JumpAlways (mkJumpAlways (Some 1))))
    by (vm_compute; reflexivity).
  assert (H2 : is_Some (block_at (built sample_linked) 2))
    by (vm_compute; eexists; reflexivity).
  split; [exact Hrun |]. split; [exact Ht |]. split; [exact Hj |].
  split; [exact H2 |].
  exact (relink_orphans_jump _ _ 0 3 2 _ Hrun Ht Hj H2).
Defined.

Lemma times_zero_not_elem {A} `{EqDecision A} (x : A) (l : list A) :
  times x l = 0 → x ∉ l.
Proof.
  induction l as [|y l IH]; simpl; [intros _; apply not_elem_of_nil |].
  case_decide; [lia |]. intros Hl. apply not_elem_of_cons. auto.
Qed.

Lemma NoDup_times {A} `{EqDecision A} (l : list A) :
  (∀ x, times x l ≤ 1) → NoDup l.
Proof.
  induction l as [|y l IH]; intros Hl; [constructor |].
  constructor.
  - apply times_zero_not_elem. specialize (Hl y). simpl in Hl.
    rewrite decide_True in Hl by done. lia.
  - apply IH. intros x. specialize (Hl x). simpl in Hl. lia.
Qed.

(** Property X15: when every block is linked once and no conditional jump
    has both branches on the same block, no predecessor vector holds a
    block twice. *)
Theorem predecessors_without_duplicates (ops : list Op) (h : heap) (t : loc) :
  run ops ∅ = Returns h →
  linked_once ops ∅ = true →
  distinct_branches h →
  NoDup (predecessors_of h t).
Proof.
  intros Hrun Honce Hdistinct.
  pose proof (run_inverse_edges ops ∅ h well_built_empty inverse_edges_empty
                Honce Hrun) as Hinv.
  apply NoDup_times. intros b. specialize (Hinv b t).
  unfold pred_count in Hinv. rewrite Hinv.
  unfold edge_count, successors.
  destruct (transition_of h b) as [j|]; [| simpl; lia].
  unfold targets_at. destruct (h !! j) as [e|] eqn:Hj; [| simpl; lia].
  destruct e; simpl; try lia.
  - case_decide; lia.
  - specialize (Hdistinct j _ Hj). repeat case_decide; try lia. congruence.
Qed.

Lemma predecessors_without_duplicates_witness :
  run sample_cond_linked ∅ = Returns (built sample_cond_linked) ∧
  linked_once sample_cond_linked ∅ = true ∧
  distinct_branches (built sample_cond_linked) ∧
  NoDup (predecessors_of (built sample_cond_linked) 1).
Proof.
  assert (Hrun : run sample_cond_linked ∅ = Returns (built sample_cond_linked))
    by (vm_compute; reflexivity).
  assert (Honce : linked_once sample_cond_linked ∅ = true)
    by (vm_compute; reflexivity).
  assert (Hdistinct : distinct_branches (built sample_cond_linked)).
  { intros c jc Hc%elem_of_map_to_list.
    remember (map_to_list (built sample_cond_linked)) as l eqn:Hl.
    vm_compute in Hl. subst l.
    repeat (apply elem_of_cons in Hc as [Hc | Hc];
            [by simplify_eq |]).
    by apply elem_of_nil in Hc. }
  split; [exact Hrun |]. split; [exact Honce |]. split; [exact Hdistinct |].
  exact (predecessors_without_duplicates _ _ 1 Hrun Honce Hdistinct).
Defined.

(** Property X16: a conditional edge is built by constructing a [JumpCond]
    and linking through it.  In a built graph, for live blocks [b], [y] and
    [n] and any condition pointer, a null one included, the constructor
    followed by the link returns; the successors of [b] are then exactly
    [y] and [n], [b] is appended to the predecessors of each, and the
    successors of every other block are what they were. *)
Theorem conditional_edge_construction (ops : list Op) (h : heap) (b y n : loc)
    (condition : ptr) :
  run ops ∅ = Returns h →
  is_Some (block_at h b) →
  is_Some (block_at h y) →
  is_Some (block_at h n) →
  ∃ c h1 h',
    construct (New_JumpCond (Some y) (Some n) condition) h = Returns (c, h1) ∧
    Block_link_cond (Some b) (Some c) h1 = Returns h' ∧
    transition_of h' b = Some c ∧
    successors h' b = [Some y; Some n] ∧
    (∀ x, predecessors_of h' x =
          predecessors_of h x ++
          (if decide (Some y = Some x) then [b] else []) ++
          (if decide (Some n = Some x) then [b] else [])) ∧
    (∀ x, x ≠ b → successors h' x = successors h x).
Proof.
  intros Hrun Hb Hy Hn.
  pose proof (run_well_built _ _ _ well_built_empty Hrun) as [Hv _].
  destruct (construct (New_JumpCond (Some y) (Some n) condition) h)
    as [[c h1]| |] eqn:Hc; try done.
  destruct (construct_effect _ _ _ _ Hc) as (Hfresh & _ & Hk & Hp1 & Ht1).
  assert (Hc1 : h1 !! c =
            Some (IR_JumpCond (mkJumpCond (Some y) (Some n) condition))).
  { simpl in Hc. injection Hc as <- <-. apply lookup_insert_eq. }
  assert (Hblock : ∀ x, is_Some (block_at h x) → is_Some (block_at h1 x)).
  { intros x [xb Hx]. unfold block_at in *.
    rewrite Hk; [rewrite Hx; eauto |].
    destruct (h !! x); [eauto | done]. }
  destruct (Block_link_cond_returns b c _ y n h1 (Hblock _ Hb) Hc1 eq_refl
              eq_refl (Hblock _ Hy) (Hblock _ Hn)) as [h' Hlink].
  exists c, h1, h'. split; [done |]. split; [done |].
  destruct (Block_link_cond_effect _ _ _ _ Hlink)
    as (b' & c' & jc & y' & n' & [= <-] & [= <-] & _ & Hjc & _ & _ & _ & _ &
        _ & Htb & Ht & Hp & Hg & _).
  assert (jc = mkJumpCond (Some y) (Some n) condition) as -> by congruence.
  simpl in Hp. split_and!.
  - done.
  - unfold successors. rewrite Htb, Hg. unfold targets_at. by rewrite Hc1.
  - intros x. by rewrite Hp, Hp1.
  - intros x Hx. unfold successors. rewrite Ht, Ht1 by done.
    destruct (transition_of h x) as [j|] eqn:Hj; [| done].
    rewrite Hg. unfold targets_at. by rewrite (Hk j (Hv _ _ Hj)).
Qed.

Lemma conditional_edge_construction_witness :
  run sample_linked ∅ = Returns (built sample_linked) ∧
  is_Some (block_at (built sample_linked) 1) ∧
  is_Some (block_at (built sample_linked) 0) ∧
  is_Some (block_at (built sample_linked) 2) ∧
  ∃ c h1 h',
    construct (New_JumpCond (Some 0) (Some 2) None) (built sample_linked) =
      Returns (c, h1) ∧
    Block_link_cond (Some 1) (Some c) h1 = Returns h' ∧
    transition_of h' 1 = Some c ∧
    successors h' 1 = [Some 0; Some 2] ∧
    (∀ x, predecessors_of h' x =
          predecessors_of (built sample_linked) x ++
          (if decide (Some 0 = Some x) then [1] else []) ++
          (if decide (Some 2 = Some x) then [1] else [])) ∧
    (∀ x, x ≠ 1 → successors h' x = successors (built sample_linked) x).
Proof.
  assert (Hrun : run sample_linked ∅ = Returns (built sample_linked))
    by (vm_compute; reflexivity).
  assert (H1 : is_Some (block_at (built sample_linked) 1))
    by (vm_compute; eexists; reflexivity).
  assert (H0 : is_Some (block_at (built sample_linked) 0))
    by (vm_compute; eexists; reflexivity).
  assert (H2 : is_Some (block_at (built sample_linked) 2))
    by (vm_compute; eexists; reflexivity).
  split; [exact Hrun |]. split; [exact H1 |]. split; [exact H0 |].
  split; [exact H2 |].
  exact (conditional_edge_construction sample_linked (built sample_linked)
           1 0 2 None Hrun H1 H0 H2).
Defined.
